(** * logrus-cloudwatch-hook: the batching and upload path of the hook

    A shallow embedding of the Go package [cloudwatchhook].  The functions of
    the package are written in a small monad of operations on the shared
    hook (field reads and writes, channel operations, the mutex, the calls
    of the CloudWatch Logs client, goroutine spawns).  The same programs are
    run in two ways: one call alone to its return ([exec]), and all
    goroutines of a hook interleaved by a scheduler ([step], [run]). *)

From Stdlib Require Import ZArith String List Bool Lia.
From stdpp Require Import base option list strings gmap.

Local Open Scope string_scope.
Local Open Scope list_scope.
Local Open Scope Z_scope.

(** ** Go values *)

(** Go's [int] and [int64] on the 64-bit targets of the AWS SDK. *)
Definition int64_wrap (z : Z) : Z := (z + 2 ^ 63) mod 2 ^ 64 - 2 ^ 63.

(** [len] of a string or of a byte slice: the number of bytes.  A length
    is far below 2^63 (a string fits in memory), and so are the sums of
    lengths and small constants that [putBatch] forms, which is why those
    sums are written without wrap-around. *)
Definition len (s : string) : Z := Z.of_nat (String.length s).

(** A Go [error] value.  [ExternalError] is an error handed to the hook by
    the SDK or by logrus; [FmtError] is one built by [fmt.Errorf]. *)
Inductive error : Type :=
| ExternalError (text : string)
| FmtError (text : string).

(** The [Error()] method. *)
Definition Error (e : error) : string :=
  match e with
  | ExternalError text => text
  | FmtError text => text
  end.

(** [fmt.Errorf(prefix + "%v", e)]. *)
Definition fmt_Errorf (prefix : string) (e : error) : error :=
  FmtError (String.append prefix (Error e)).

(** ** logrus *)

Inductive Level : Type :=
| PanicLevel | FatalLevel | ErrorLevel | WarnLevel | InfoLevel | DebugLevel
| TraceLevel.

(** A [logrus.Entry]: its level and what [entry.String()] gives, the line
    made by the logger's formatter or the formatter's error. *)
Record Entry : Type := {
  EntryLevel : Level;
  EntryString : string + error
}.

(** ** CloudWatch Logs SDK types *)

(** [types.InputLogEvent].  In the SDK both fields are pointers; every
    event this package handles is built by [Write], which sets both. *)
Record InputLogEvent : Type := {
  Message : string;
  Timestamp : Z
}.

Record PutLogEventsInput : Type := {
  LogEvents : list InputLogEvent;
  LogGroupName : string;
  LogStreamName : string;
  SequenceToken : option string
}.

Record PutLogEventsOutput : Type := {
  NextSequenceToken : option string
}.

Record LogGroup : Type := {
  group_LogGroupName : option string
}.

Record LogStream : Type := {
  stream_LogStreamName : option string;
  UploadSequenceToken : option string
}.

Record DescribeLogGroupsInput : Type := {
  LogGroupNamePrefix : string;
  groups_NextToken : option string
}.

Record DescribeLogGroupsOutput : Type := {
  LogGroups : list LogGroup;
  groups_out_NextToken : option string
}.

Record DescribeLogStreamsInput : Type := {
  streams_LogGroupName : string;
  LogStreamNamePrefix : string;
  streams_NextToken : option string
}.

Record DescribeLogStreamsOutput : Type := {
  LogStreams : list LogStream;
  streams_out_NextToken : option string
}.

Record CreateLogGroupInput : Type := {
  create_LogGroupName : string;
  Tags : option (gmap string string);
  KmsKeyId : option string
}.

Record CreateLogStreamInput : Type := {
  cs_LogGroupName : string;
  cs_LogStreamName : string
}.

(** [aws.ToString]: the empty string for a nil pointer. *)
Definition aws_ToString (p : option string) : string :=
  match p with
  | Some s => s
  | None => ""
  end.

(** The service behind [h.client], as a transition system on a state [W]. *)
Record Client (W : Type) : Type := {
  svc_LoadDefaultConfig : W -> option string -> option error;
  svc_PutLogEvents :
    W -> PutLogEventsInput -> W * (PutLogEventsOutput + error);
  svc_DescribeLogGroups :
    W -> DescribeLogGroupsInput -> W * (DescribeLogGroupsOutput + error);
  svc_CreateLogGroup : W -> CreateLogGroupInput -> W * option error;
  svc_DescribeLogStreams :
    W -> DescribeLogStreamsInput -> W * (DescribeLogStreamsOutput + error);
  svc_CreateLogStream : W -> CreateLogStreamInput -> W * option error
}.
Arguments svc_LoadDefaultConfig {W}.
Arguments svc_PutLogEvents {W}.
Arguments svc_DescribeLogGroups {W}.
Arguments svc_CreateLogGroup {W}.
Arguments svc_DescribeLogStreams {W}.
Arguments svc_CreateLogStream {W}.

(** ** The hook *)

(** A buffered channel of log events, [make(chan types.InputLogEvent, n)]. *)
Record channel : Type := {
  capacity : Z;
  buffer : list InputLogEvent
}.

Definition make_chan (n : Z) : channel :=
  {| capacity := n; buffer := [] |}.

(** The fields of [CloudWatchLogsHook].  [client] and [mutex] are kept in
    the system state below; [ch] and [err] are [None] for Go's [nil]. *)
Record CloudWatchLogsHook : Type := {
  group : string;
  stream : string;
  nextSequenceToken : option string;
  retentionDays : Z;
  kmsKeyID : string;
  tags : gmap string string;
  logFrequency : Z;
  ch : option channel;
  err : option error
}.

Definition set_nextSequenceToken (v : option string) (h : CloudWatchLogsHook)
  : CloudWatchLogsHook :=
  {| group := group h; stream := stream h; nextSequenceToken := v;
     retentionDays := retentionDays h; kmsKeyID := kmsKeyID h;
     tags := tags h; logFrequency := logFrequency h; ch := ch h;
     err := err h |}.

Definition set_err (v : option error) (h : CloudWatchLogsHook)
  : CloudWatchLogsHook :=
  {| group := group h; stream := stream h;
     nextSequenceToken := nextSequenceToken h;
     retentionDays := retentionDays h; kmsKeyID := kmsKeyID h;
     tags := tags h; logFrequency := logFrequency h; ch := ch h;
     err := v |}.

Definition set_ch (v : option channel) (h : CloudWatchLogsHook)
  : CloudWatchLogsHook :=
  {| group := group h; stream := stream h;
     nextSequenceToken := nextSequenceToken h;
     retentionDays := retentionDays h; kmsKeyID := kmsKeyID h;
     tags := tags h; logFrequency := logFrequency h; ch := v;
     err := err h |}.

(** [CloudWatchLogsHookOption]: a function that updates the hook. *)
Definition CloudWatchLogsHookOption : Type :=
  CloudWatchLogsHook -> CloudWatchLogsHook.

Definition WithGroupRetentionDays (days : Z) : CloudWatchLogsHookOption :=
  fun h =>
  {| group := group h; stream := stream h;
     nextSequenceToken := nextSequenceToken h;
     retentionDays := days; kmsKeyID := kmsKeyID h;
     tags := tags h; logFrequency := logFrequency h; ch := ch h;
     err := err h |}.

Definition WithGroupKmsKeyID (id : string) : CloudWatchLogsHookOption :=
  fun h =>
  {| group := group h; stream := stream h;
     nextSequenceToken := nextSequenceToken h;
     retentionDays := retentionDays h; kmsKeyID := id;
     tags := tags h; logFrequency := logFrequency h; ch := ch h;
     err := err h |}.

Definition WithGroupTags (tgs : gmap string string)
  : CloudWatchLogsHookOption :=
  fun h =>
  {| group := group h; stream := stream h;
     nextSequenceToken := nextSequenceToken h;
     retentionDays := retentionDays h; kmsKeyID := kmsKeyID h;
     tags := tgs; logFrequency := logFrequency h; ch := ch h;
     err := err h |}.

Definition WithBatchDuration (frequency : Z) : CloudWatchLogsHookOption :=
  fun h =>
  {| group := group h; stream := stream h;
     nextSequenceToken := nextSequenceToken h;
     retentionDays := retentionDays h; kmsKeyID := kmsKeyID h;
     tags := tags h; logFrequency := frequency; ch := ch h;
     err := err h |}.

(** ** Programs over the shared hook *)

(** What a [select] over [h.ch] and the ticker chose. *)
Inductive select_case : Type :=
| case_ch (p : InputLogEvent)
| case_ticker.

(** The operations a goroutine performs on state it shares with others:
    the clock, the fields of the hook ([Get] reads one), the channel, the
    ticker, the mutex, the client.  Each is one atomic step of the
    interleaving; goroutines see each other's writes in the order of the
    steps. *)
Inductive eff : Type -> Type :=
| Now : eff Z
| Get {A : Type} (field : CloudWatchLogsHook -> A) : eff A
| SetNextSequenceToken (v : option string) : eff unit
| SetErr (v : option error) : eff unit
| ChanSend (e : InputLogEvent) : eff unit
| Select : eff select_case
| Lock : eff unit
| Unlock : eff unit
| PutLogEvents (input : PutLogEventsInput)
  : eff (PutLogEventsOutput + error)
| LoadDefaultConfig (region : option string) : eff (option error)
| NewHook (h : CloudWatchLogsHook) : eff unit
| DescribeLogGroups (input : DescribeLogGroupsInput)
  : eff (DescribeLogGroupsOutput + error)
| CreateLogGroup (input : CreateLogGroupInput) : eff (option error)
| DescribeLogStreams (input : DescribeLogStreamsInput)
  : eff (DescribeLogStreamsOutput + error)
| CreateLogStream (input : CreateLogStreamInput) : eff (option error).

(** The functions the package starts with [go]. *)
Inductive goroutine : Type :=
| go_putBatch
| go_sendBatch (batch : list InputLogEvent).

(** A program returning an [R]: a tree of operations.  [Loop body st k] is
    a [for] loop with loop-carried variables [st]; an iteration returns
    [inl st'] to go round again and [inr x] to leave the loop with [x]. *)
Inductive prog (R : Type) : Type :=
| Ret (r : R)
| Panic
| Do {X : Type} (e : eff X) (k : X -> prog R)
| Go (g : goroutine) (k : prog R)
| Loop {S T : Type} (body : S -> prog (S + T)) (st : S) (k : T -> prog R).
Arguments Ret {R} r.
Arguments Panic {R}.
Arguments Do {R X} e k.
Arguments Go {R} g k.
Arguments Loop {R S T} body st k.

Fixpoint bind {A B : Type} (p : prog A) (f : A -> prog B) : prog B :=
  match p with
  | Ret r => f r
  | Panic => Panic
  | Do e k => Do e (fun x => bind (k x) f)
  | Go g k => Go g (bind k f)
  | Loop body st k => Loop body st (fun x => bind (k x) f)
  end.

Declare Scope prog_scope.
Delimit Scope prog_scope with prog.
Bind Scope prog_scope with prog.
Notation "x <- e ;; k" := (Do e (fun x => k))
  (at level 100, e at next level, k at level 200, right associativity)
  : prog_scope.
Notation "e ;; k" := (Do e (fun _ => k))
  (at level 100, k at level 200, right associativity) : prog_scope.
Notation "'go' g ;; k" := (Go g k)
  (at level 100, g at next level, k at level 200, right associativity)
  : prog_scope.
Notation "x <~ p ;; k" := (bind p (fun x => k))
  (at level 100, p at next level, k at level 200, right associativity)
  : prog_scope.
Local Open Scope prog_scope.

(** [len] of a slice. *)
Definition slice_len {A : Type} (l : list A) : Z := Z.of_nat (length l).

(** ** The functions of the package *)

(** [Write]: the event is built from the message and the clock; with a
    channel the event is queued and a cached error, if any, is handed
    back; without one the event is uploaded under the mutex.  The deferred
    [Unlock] is written out before each return. *)
Definition Write (msg : string) : prog (Z * option error) :=
  now <- Now ;;
  let event :=
    {| Message := msg;
       Timestamp := Z.quot (int64_wrap (1 * now)) 1000000 |} in
  c <- Get ch ;;
  match c with
  | Some _ =>
    ChanSend event ;;
    e <- Get err ;;
    match e with
    | Some _ =>
      lastErr <- Get err ;;
      SetErr None ;;
      match lastErr with
      | Some e' => Ret (0, Some (fmt_Errorf "" e'))
      | None => Panic
      end
    | None => Ret (len msg, None)
    end
  | None =>
    Lock ;;
    g <- Get group ;;
    s <- Get stream ;;
    tok <- Get nextSequenceToken ;;
    let input :=
      {| LogEvents := [event]; LogGroupName := g; LogStreamName := s;
         SequenceToken := tok |} in
    r <- PutLogEvents input ;;
    match r with
    | inr err => Unlock ;; Ret (0, Some err)
    | inl result =>
      SetNextSequenceToken (NextSequenceToken result) ;;
      Unlock ;;
      Ret (len msg, None)
    end
  end.

(** [Fire]. *)
Definition Fire (entry : Entry) : prog (option error) :=
  match EntryString entry with
  | inr err => Ret (Some (fmt_Errorf "Unable to parse entry: " err))
  | inl line =>
    match EntryLevel entry with
    | PanicLevel | ErrorLevel | WarnLevel | InfoLevel | DebugLevel =>
      res <~ Write line ;;
      let '(_, err) := res in
      Ret err
    | _ => Ret None
    end
  end.

(** [Levels]. *)
Definition Levels : list Level :=
  [PanicLevel; FatalLevel; ErrorLevel; WarnLevel; InfoLevel; DebugLevel].

(** [sendBatch]. *)
Definition sendBatch (batch : list InputLogEvent) : prog unit :=
  Lock ;;
  if slice_len batch =? 0 then
    Unlock ;; Ret tt
  else
    g <- Get group ;;
    s <- Get stream ;;
    tok <- Get nextSequenceToken ;;
    let input :=
      {| LogEvents := batch; LogGroupName := g; LogStreamName := s;
         SequenceToken := tok |} in
    r <- PutLogEvents input ;;
    match r with
    | inr err => SetErr (Some err) ;; Unlock ;; Ret tt
    | inl result =>
      SetNextSequenceToken (NextSequenceToken result) ;;
      Unlock ;;
      Ret tt
    end.

(** One turn of the [for]/[select] loop of [putBatch]; the loop-carried
    variables are [batch] and [size]. *)
Definition putBatch_iteration (st : list InputLogEvent * Z)
  : prog (list InputLogEvent * Z + Empty_set) :=
  let '(batch, size) := st in
  x <- Select ;;
  match x with
  | case_ch p =>
    let messageSize := len (Message p) + 26 in
    if (size + messageSize >? 1048576) || (slice_len batch =? 10000) then
      go (go_sendBatch batch) ;;
      let batch := [] in
      let size := 0 in
      Ret (inl (batch ++ [p], size + messageSize))
    else
      Ret (inl (batch ++ [p], size + messageSize))
  | case_ticker =>
    go (go_sendBatch batch) ;;
    Ret (inl ([], 0))
  end.

(** [putBatch]: the loop never ends. *)
Definition putBatch : prog unit :=
  Loop putBatch_iteration ([], 0)
       (fun x : Empty_set => match x with end).

(** What [go] starts. *)
Definition body_of (g : goroutine) : prog unit :=
  match g with
  | go_putBatch => putBatch
  | go_sendBatch batch => sendBatch batch
  end.

(** [findLogGroup]: one turn of the loop is one page of results. *)
Definition findLogGroup : prog (option LogGroup * option error) :=
  Loop (fun nextToken : option string =>
          g <- Get group ;;
          r <- DescribeLogGroups
                 {| LogGroupNamePrefix := g;
                    groups_NextToken := nextToken |} ;;
          match r with
          | inr err => Ret (inr (None, Some err))
          | inl result =>
            match find (fun grp =>
                          String.eqb (aws_ToString (group_LogGroupName grp))
                                     g)
                       (LogGroups result) with
            | Some grp => Ret (inr (Some grp, None))
            | None =>
              match groups_out_NextToken result with
              | None => Ret (inr (None, None))
              | Some tok => Ret (inl (Some tok))
              end
            end
          end)
       None
       (fun res => Ret res).

(** [findLogStream]: as [findLogGroup], and the stream's upload sequence
    token is stored in the hook. *)
Definition findLogStream : prog (option LogStream * option error) :=
  Loop (fun nextToken : option string =>
          g <- Get group ;;
          s <- Get stream ;;
          r <- DescribeLogStreams
                 {| streams_LogGroupName := g;
                    LogStreamNamePrefix := s;
                    streams_NextToken := nextToken |} ;;
          match r with
          | inr err => Ret (inr (None, Some err))
          | inl result =>
            match find (fun str =>
                          String.eqb (aws_ToString (stream_LogStreamName str))
                                     s)
                       (LogStreams result) with
            | Some str =>
              SetNextSequenceToken (UploadSequenceToken str) ;;
              Ret (inr (Some str, None))
            | None =>
              match streams_out_NextToken result with
              | None => Ret (inr (None, None))
              | Some tok => Ret (inl (Some tok))
              end
            end
          end)
       None
       (fun res => Ret res).

(** [createLogGroup]. *)
Definition createLogGroup : prog (option error) :=
  res <~ findLogGroup ;;
  let '(grp, err) := res in
  match err with
  | Some e => Ret (Some e)
  | None =>
    match grp with
    | Some _ => Ret None
    | None =>
      g <- Get group ;;
      t <- Get tags ;;
      k <- Get kmsKeyID ;;
      let input :=
        {| create_LogGroupName := g;
           Tags := if Z.of_nat (size t) >? 0 then Some t else None;
           KmsKeyId := if String.eqb k "" then None else Some k |} in
      err <- CreateLogGroup input ;;
      match err with
      | Some e => Ret (Some e)
      | None => Ret None
      end
    end
  end.

(** [createLogStream]. *)
Definition createLogStream : prog (option error) :=
  res <~ findLogStream ;;
  let '(str, err) := res in
  match err with
  | Some e => Ret (Some e)
  | None =>
    match str with
    | Some _ => Ret None
    | None =>
      g <- Get group ;;
      s <- Get stream ;;
      err <- CreateLogStream {| cs_LogGroupName := g;
                                cs_LogStreamName := s |} ;;
      match err with
      | Some e => Ret (Some e)
      | None =>
        res <~ findLogStream ;;
        let '(_, err) := res in
        match err with
        | Some e => Ret (Some e)
        | None => Ret None
        end
      end
    end
  end.

(** The hook as [NewCloudWatchLogsHook] first builds it. *)
Definition new_hook (group stream : string) : CloudWatchLogsHook :=
  {| group := group; stream := stream; nextSequenceToken := None;
     retentionDays := 0; kmsKeyID := ""; tags := ∅; logFrequency := 0;
     ch := None; err := None |}.

(** [for _, opt := range options { opt(hook) }]. *)
Definition apply_options (options : list CloudWatchLogsHookOption)
           (hook : CloudWatchLogsHook) : CloudWatchLogsHook :=
  fold_left (fun h opt => opt h) options hook.

(** [NewCloudWatchLogsHook]: returns the error, [None] when the hook is
    returned.  The hook is private to the constructor until [putBatch] is
    started, so it is built as a value and then placed in the shared
    state. *)
Definition NewCloudWatchLogsHook (region group stream : string)
           (options : list CloudWatchLogsHookOption) : prog (option error) :=
  err <- LoadDefaultConfig
           (if String.eqb region "" then None else Some region) ;;
  match err with
  | Some e => Ret (Some e)
  | None =>
    let hook := new_hook group stream in
    let hook := apply_options options hook in
    _ <~ (if logFrequency hook >? 0 then
               NewHook (set_ch (Some (make_chan 10000)) hook) ;;
               go go_putBatch ;;
               Ret tt
             else
               NewHook hook ;; Ret tt) ;;
    err <~ createLogGroup ;;
    match err with
    | Some e => Ret (Some e)
    | None =>
      err <~ createLogStream ;;
      match err with
      | Some e => Ret (Some e)
      | None => Ret None
      end
    end
  end.

(** ** The system: one hook, its goroutines, the service *)

Section System.

Context {W : Type} (client : Client W).

(** The shared state.  [mutex] is [h.mutex], with the goroutine that holds
    it; [ticker] is the channel of [time.Tick], which buffers one tick;
    [uploads] logs every [PutLogEvents] call with its answer and [started]
    every [go] statement, in the order they happen. *)
Record sys : Type := {
  hook : CloudWatchLogsHook;
  mutex : option nat;
  ticker : bool;
  clock : Z;
  cloud : W;
  uploads : list (PutLogEventsInput * (PutLogEventsOutput + error));
  started : list goroutine;
  threads : list (prog unit)
}.

Definition with_hook (f : CloudWatchLogsHook -> CloudWatchLogsHook) (s : sys)
  : sys :=
  {| hook := f (hook s); mutex := mutex s; ticker := ticker s;
     clock := clock s; cloud := cloud s; uploads := uploads s;
     started := started s; threads := threads s |}.

Definition with_mutex (m : option nat) (s : sys) : sys :=
  {| hook := hook s; mutex := m; ticker := ticker s;
     clock := clock s; cloud := cloud s; uploads := uploads s;
     started := started s; threads := threads s |}.

Definition with_ticker (b : bool) (s : sys) : sys :=
  {| hook := hook s; mutex := mutex s; ticker := b;
     clock := clock s; cloud := cloud s; uploads := uploads s;
     started := started s; threads := threads s |}.

Definition with_clock (c : Z) (s : sys) : sys :=
  {| hook := hook s; mutex := mutex s; ticker := ticker s;
     clock := c; cloud := cloud s; uploads := uploads s;
     started := started s; threads := threads s |}.

Definition with_cloud (w : W) (s : sys) : sys :=
  {| hook := hook s; mutex := mutex s; ticker := ticker s;
     clock := clock s; cloud := w; uploads := uploads s;
     started := started s; threads := threads s |}.

Definition with_upload (w : W)
           (u : PutLogEventsInput * (PutLogEventsOutput + error)) (s : sys)
  : sys :=
  {| hook := hook s; mutex := mutex s; ticker := ticker s;
     clock := clock s; cloud := w; uploads := uploads s ++ [u];
     started := started s; threads := threads s |}.

Definition with_threads (ths : list (prog unit)) (s : sys) : sys :=
  {| hook := hook s; mutex := mutex s; ticker := ticker s;
     clock := clock s; cloud := cloud s; uploads := uploads s;
     started := started s; threads := ths |}.

(** [go g]: a new goroutine at the end of the pool. *)
Definition start (g : goroutine) (s : sys) : sys :=
  {| hook := hook s; mutex := mutex s; ticker := ticker s;
     clock := clock s; cloud := cloud s; uploads := uploads s;
     started := started s ++ [g]; threads := threads s ++ [body_of g] |}.

(** One operation of goroutine [t].  [None]: the operation cannot proceed
    now (a held mutex, a full or nil channel, nothing to select; also the
    unlock of a free mutex, a fatal error in Go that no function of the
    package commits).  When both cases of the [select] are ready, [pick]
    chooses the channel. *)
Definition handle {X : Type} (t : nat) (pick : bool) (e : eff X) (s : sys)
  : option (X * sys) :=
  match e in eff X return option (X * sys) with
  | Now => Some (clock s, s)
  | Get field => Some (field (hook s), s)
  | SetNextSequenceToken v =>
    Some (tt, with_hook (set_nextSequenceToken v) s)
  | SetErr v => Some (tt, with_hook (set_err v) s)
  | ChanSend ev =>
    match ch (hook s) with
    | Some c =>
      if slice_len (buffer c) <? capacity c then
        Some (tt, with_hook (set_ch (Some {| capacity := capacity c;
                                             buffer := buffer c ++ [ev] |}))
                            s)
      else None
    | None => None
    end
  | Select =>
    let queued :=
      match ch (hook s) with
      | Some c =>
        match buffer c with
        | p :: rest =>
          Some (p, {| capacity := capacity c; buffer := rest |})
        | [] => None
        end
      | None => None
      end in
    match queued, ticker s with
    | Some (p, c'), true =>
      if pick then Some (case_ch p, with_hook (set_ch (Some c')) s)
      else Some (case_ticker, with_ticker false s)
    | Some (p, c'), false =>
      Some (case_ch p, with_hook (set_ch (Some c')) s)
    | None, true => Some (case_ticker, with_ticker false s)
    | None, false => None
    end
  | Lock =>
    match mutex s with
    | None => Some (tt, with_mutex (Some t) s)
    | Some _ => None
    end
  | Unlock =>
    match mutex s with
    | Some _ => Some (tt, with_mutex None s)
    | None => None
    end
  | PutLogEvents input =>
    let '(w, r) := svc_PutLogEvents client (cloud s) input in
    Some (r, with_upload w (input, r) s)
  | LoadDefaultConfig region =>
    Some (svc_LoadDefaultConfig client (cloud s) region, s)
  | NewHook h => Some (tt, with_hook (fun _ => h) s)
  | DescribeLogGroups input =>
    let '(w, r) := svc_DescribeLogGroups client (cloud s) input in
    Some (r, with_cloud w s)
  | CreateLogGroup input =>
    let '(w, r) := svc_CreateLogGroup client (cloud s) input in
    Some (r, with_cloud w s)
  | DescribeLogStreams input =>
    let '(w, r) := svc_DescribeLogStreams client (cloud s) input in
    Some (r, with_cloud w s)
  | CreateLogStream input =>
    let '(w, r) := svc_CreateLogStream client (cloud s) input in
    Some (r, with_cloud w s)
  end.

(** *** One call, run alone to its return *)

Inductive outcome (R : Type) : Type :=
| Done (r : R) (s : sys)
| Blocked
| Panicked
| OutOfFuel.
Arguments Done {R} r s.
Arguments Blocked {R}.
Arguments Panicked {R}.
Arguments OutOfFuel {R}.

(** At most [n] turns of a loop: [turn] runs one turn, [leave] what comes
    after the loop. *)
Fixpoint exec_loop {R St T : Type} (turn : St -> sys -> outcome (St + T))
         (leave : T -> sys -> outcome R) (n : nat) (st : St) (s : sys)
  : outcome R :=
  match n with
  | O => OutOfFuel
  | S n' =>
    match turn st s with
    | Done (inl st') s' => exec_loop turn leave n' st' s'
    | Done (inr x) s' => leave x s'
    | Blocked => Blocked
    | Panicked => Panicked
    | OutOfFuel => OutOfFuel
    end
  end.

(** Goroutine [t] runs [p] with no other goroutine taking a step.  Every
    loop is given [fuel] turns. *)
Fixpoint exec {R : Type} (p : prog R) (fuel : nat) (t : nat) (s : sys)
         {struct p} : outcome R :=
  match p with
  | Ret r => Done r s
  | Panic => Panicked
  | Do e k =>
    match handle t true e s with
    | Some (x, s') => exec (k x) fuel t s'
    | None => Blocked
    end
  | Go g k => exec k fuel t (start g s)
  | Loop body st k =>
    exec_loop (fun st s => exec (body st) fuel t s)
              (fun x s => exec (k x) fuel t s) fuel st s
  end.

(** *** All goroutines, interleaved *)

(** What can happen next: some goroutine of the program calls [Write] or
    [Fire], the ticker fires, time passes, or the scheduler lets goroutine
    [t] perform its next operation. *)
Inductive action : Type :=
| CallWrite (msg : string)
| CallFire (entry : Entry)
| Tick
| SetClock (now : Z)
| Sched (t : nat) (pick : bool).

Definition call {R : Type} (p : prog R) (s : sys) : sys :=
  with_threads (threads s ++ [_ <~ p ;; Ret tt]) s.

Definition step (s : sys) (a : action) : option sys :=
  match a with
  | CallWrite msg => Some (call (Write msg) s)
  | CallFire entry => Some (call (Fire entry) s)
  | Tick => Some (with_ticker true s)
  | SetClock now => Some (with_clock now s)
  | Sched t pick =>
    match threads s !! t with
    | Some (Do e k) =>
      match handle t pick e s with
      | Some (x, s') => Some (with_threads (<[t := k x]> (threads s')) s')
      | None => None
      end
    | Some (Go g k) =>
      let s' := start g s in
      Some (with_threads (<[t := k]> (threads s')) s')
    | Some (Loop body st k) =>
      let unrolled :=
        r <~ body st ;;
        match r with
        | inl st' => Loop body st' k
        | inr x => k x
        end in
      Some (with_threads (<[t := unrolled]> (threads s)) s)
    | Some (Ret _) | Some Panic | None => None
    end
  end.

Fixpoint run (s : sys) (schedule : list action) : option sys :=
  match schedule with
  | [] => Some s
  | a :: rest =>
    match step s a with
    | Some s' => run s' rest
    | None => None
    end
  end.

(** The system once [NewCloudWatchLogsHook] has returned hook [h]: the
    mutex is free, and [putBatch] runs if and only if there is a channel. *)
Definition initial (h : CloudWatchLogsHook) (w : W) : sys :=
  {| hook := h; mutex := None; ticker := false; clock := 0; cloud := w;
     uploads := []; started := [];
     threads := match ch h with
                | Some _ => [putBatch]
                | None => []
                end |}.

End System.

Arguments Done {W R} r s.
Arguments Blocked {W R}.
Arguments Panicked {W R}.
Arguments OutOfFuel {W R}.

(** *** The batching loop on its own *)

(** A turn of a loop that selects once: the [select] is answered by [x],
    and the goroutines the turn starts are collected. *)
Fixpoint feed {R : Type} (p : prog R) (x : select_case)
  : option (list goroutine * R) :=
  match p with
  | Ret r => Some ([], r)
  | Do e k =>
    match e in eff X return (X -> prog R) -> option (list goroutine * R) with
    | Select => fun k => feed (k x) x
    | _ => fun _ => None
    end k
  | Go g k =>
    match feed k x with
    | Some (gs, r) => Some (g :: gs, r)
    | None => None
    end
  | Panic | Loop _ _ _ => None
  end.

(** [putBatch] from loop state [st], over the sequence [inputs] of what its
    [select] receives: the goroutines started and the loop state reached. *)
Fixpoint putBatch_trace (st : list InputLogEvent * Z)
         (inputs : list select_case)
  : option (list goroutine * (list InputLogEvent * Z)) :=
  match inputs with
  | [] => Some ([], st)
  | x :: rest =>
    match feed (putBatch_iteration st) x with
    | Some (gs, inl st') =>
      match putBatch_trace st' rest with
      | Some (gs', st'') => Some (gs ++ gs', st'')
      | None => None
      end
    | _ => None
    end
  end.

(** ** Notions the properties are stated with *)

(** The bytes an event counts for in a batch: its message and 26 bytes. *)
Definition event_size (p : InputLogEvent) : Z := len (Message p) + 26.

Fixpoint batch_size (batch : list InputLogEvent) : Z :=
  match batch with
  | [] => 0
  | p :: rest => event_size p + batch_size rest
  end.

(** The request for [events] read off the fields of hook [h]. *)
Definition request (h : CloudWatchLogsHook) (events : list InputLogEvent)
  : PutLogEventsInput :=
  {| LogEvents := events; LogGroupName := group h;
     LogStreamName := stream h; SequenceToken := nextSequenceToken h |}.

(** The token the next upload must carry, after the uploads of [log] in
    order, starting from token [tok]: that of the last successful one. *)
Fixpoint token_after (tok : option string)
         (log : list (PutLogEventsInput * (PutLogEventsOutput + error)))
  : option string :=
  match log with
  | [] => tok
  | (_, inl result) :: rest => token_after (NextSequenceToken result) rest
  | (_, inr _) :: rest => token_after tok rest
  end.

(** Every upload of [log] carries the token left by the uploads before it. *)
Fixpoint threaded (tok : option string)
         (log : list (PutLogEventsInput * (PutLogEventsOutput + error)))
  : Prop :=
  match log with
  | [] => True
  | (input, r) :: rest =>
    SequenceToken input = tok /\
    threaded (match r with
              | inl result => NextSequenceToken result
              | inr _ => tok
              end) rest
  end.

(** Goroutine [t] of [s] is about to call [PutLogEvents]. *)
Definition uploading {W : Type} (s : @sys W) (t : nat) : Prop :=
  exists input k, threads s !! t = Some (Do (PutLogEvents input) k).

(** A service for examples: it answers the [PutLogEvents] calls from a
    script, one answer per call, and knows no group and no stream. *)
Definition scripted : Client (list (PutLogEventsOutput + error)) :=
  {| svc_LoadDefaultConfig := fun _ _ => None;
     svc_PutLogEvents := fun w _ =>
       match w with
       | r :: rest => (rest, r)
       | [] => ([], inr (ExternalError "ServiceUnavailableException"))
       end;
     svc_DescribeLogGroups := fun w _ =>
       (w, inl {| LogGroups := []; groups_out_NextToken := None |});
     svc_CreateLogGroup := fun w _ => (w, None);
     svc_DescribeLogStreams := fun w _ =>
       (w, inl {| LogStreams := []; streams_out_NextToken := None |});
     svc_CreateLogStream := fun w _ => (w, None) |}.

(** ** The invariant of the batching loop *)

(** What holds of [batch] and [size] at the head of every turn. *)
Definition loop_inv (st : list InputLogEvent * Z) : Prop :=
  let '(batch, size) := st in
  size = batch_size batch /\
  slice_len batch <= 10000 /\
  (batch_size batch <= 1048576 \/
   exists p, batch = [p] /\ 1048576 < event_size p).

(** ** The lock discipline *)

(** How a goroutine stands to the mutex: it does not hold it, or it holds
    it, [expected] being the token left by the uploads made so far (see
    [token_after]) and [stored] the value of [h.nextSequenceToken]. *)
Inductive mode : Type :=
| Free
| Held (expected stored : option string).

(** [disciplined m p]: from mode [m], program [p] locks before and unlocks
    after every upload and every write of the token, sends the stored
    token with an upload made when stored and expected token agree, and
    releases the mutex only once they agree again. *)
Fixpoint disciplined {R : Type} (m : mode) (p : prog R) {struct p} : Prop :=
  match p with
  | Ret _ => m = Free
  | Panic => m = Free
  | Go _ k => disciplined m k
  | Loop body st k =>
    m = Free /\
    (forall st', disciplined Free (body st')) /\
    (forall x, disciplined Free (k x))
  | Do e k =>
    match e in eff X return (X -> prog R) -> Prop with
    | Lock => fun k =>
      m = Free /\ forall tok, disciplined (Held tok tok) (k tt)
    | Unlock => fun k =>
      match m with
      | Held expected stored =>
        expected = stored /\ disciplined Free (k tt)
      | Free => False
      end
    | SetNextSequenceToken v => fun k =>
      match m with
      | Held expected _ => disciplined (Held expected v) (k tt)
      | Free => False
      end
    | PutLogEvents input => fun k =>
      match m with
      | Held expected stored =>
        SequenceToken input = stored /\
        stored = expected /\
        forall r,
          disciplined (Held (match r with
                             | inl result => NextSequenceToken result
                             | inr _ => expected
                             end) stored) (k r)
      | Free => False
      end
    | Get field => fun k =>
      forall h,
        match m with
        | Held _ stored => nextSequenceToken h = stored
        | Free => True
        end ->
        disciplined m (k (field h))
    | NewHook _ => fun _ => False
    | Now => fun k => forall x, disciplined m (k x)
    | SetErr _ => fun k => forall x, disciplined m (k x)
    | ChanSend _ => fun k => forall x, disciplined m (k x)
    | Select => fun k => forall x, disciplined m (k x)
    | LoadDefaultConfig _ => fun k => forall x, disciplined m (k x)
    | DescribeLogGroups _ => fun k => forall x, disciplined m (k x)
    | CreateLogGroup _ => fun k => forall x, disciplined m (k x)
    | DescribeLogStreams _ => fun k => forall x, disciplined m (k x)
    | CreateLogStream _ => fun k => forall x, disciplined m (k x)
    end k
  end.

(** ** The invariant of the interleaved system *)

(** The mode of goroutine [t] when the mutex is in state [mx]. *)
Definition mode_of (mx : option nat) (expected stored : option string)
           (t : nat) : mode :=
  match mx with
  | Some t' => if Nat.eqb t t' then Held expected stored else Free
  | None => Free
  end.

Definition threads_ok (mx : option nat) (expected stored : option string)
           (ths : list (prog unit)) : Prop :=
  forall t p, ths !! t = Some p ->
    disciplined (mode_of mx expected stored t) p.

(** [tok0] is the token stored when the system started. *)
Definition Inv {W : Type} (tok0 : option string) (s : @sys W) : Prop :=
  threaded tok0 (uploads s) /\
  (mutex s = None ->
   nextSequenceToken (hook s) = token_after tok0 (uploads s)) /\
  (forall t, mutex s = Some t -> (t < length (threads s))%nat) /\
  threads_ok (mutex s) (token_after tok0 (uploads s))
             (nextSequenceToken (hook s)) (threads s).

(** ** The constructor and the channel: what leaves the channel alone *)

(** [keeps_ch p]: [p] neither replaces the hook nor uses the channel. *)
Fixpoint keeps_ch {R : Type} (p : prog R) {struct p} : Prop :=
  match p with
  | Ret _ => True
  | Panic => True
  | Go _ k => keeps_ch k
  | Loop body st k =>
    (forall st', keeps_ch (body st')) /\ (forall x, keeps_ch (k x))
  | Do e k =>
    match e with
    | NewHook _ | ChanSend _ | Select => False
    | _ => forall x, keeps_ch (k x)
    end
  end.

(** An option other than [WithBatchDuration]. *)
Definition not_batch_option (opt : CloudWatchLogsHookOption) : Prop :=
  (exists days, opt = WithGroupRetentionDays days) \/
  (exists id, opt = WithGroupKmsKeyID id) \/
  (exists tgs, opt = WithGroupTags tgs).


(** ** Sample events, hooks, entries and schedules *)

(** A message of 1,048,551 bytes: with the 26 bytes of overhead, one byte
    more than a batch may hold. *)
Fixpoint fill (n : nat) : string :=
  match n with
  | O => EmptyString
  | S n' => String (Ascii.ascii_of_nat 120) (fill n')
  end.

Definition big_message : string := fill (Z.to_nat 1048551).

Definition big_event : InputLogEvent :=
  {| Message := big_message; Timestamp := 0 |}.

Definition small_event : InputLogEvent :=
  {| Message := "ok"; Timestamp := 0 |}.

Definition example_hook : CloudWatchLogsHook := new_hook "grp" "str".

Definition batched_hook : CloudWatchLogsHook :=
  set_ch (Some (make_chan 10000))
         (WithBatchDuration 5000000000 (new_hook "grp" "str")).

Definition boom : error := ExternalError "InvalidSequenceTokenException".

Definition fatal_entry : Entry :=
  {| EntryLevel := FatalLevel; EntryString := inl "level=fatal msg=stop" |}.

Definition unformattable_fatal_entry : Entry :=
  {| EntryLevel := FatalLevel;
     EntryString := inr (ExternalError "json: unsupported type") |}.

(** Two callers write without a channel, one after the other. *)
Definition two_writes : list action :=
  [CallWrite "a"] ++ repeat (Sched 0 true) 9 ++
  [CallWrite "b"] ++ repeat (Sched 1 true) 9.

(** Two callers write without a channel at once: the first runs up to its
    upload, the second up to the mutex. *)
Definition two_writers_contend : list action :=
  [CallWrite "a"; CallWrite "b"] ++ repeat (Sched 0 true) 6 ++
  repeat (Sched 1 true) 2.

(** ** Notions for the further properties *)

(** The events among what the [select] of [putBatch] received, in order. *)
Fixpoint received (inputs : list select_case) : list InputLogEvent :=
  match inputs with
  | [] => []
  | case_ch p :: rest => p :: received rest
  | case_ticker :: rest => received rest
  end.

(** The batches that the started goroutines were given, in order. *)
Fixpoint batches_of (gs : list goroutine) : list (list InputLogEvent) :=
  match gs with
  | [] => []
  | go_sendBatch batch :: rest => batch :: batches_of rest
  | go_putBatch :: rest => batches_of rest
  end.

(** The error cached after the uploads of [log], [e0] being cached before:
    that of the last failed one. *)
Fixpoint last_error (e0 : option error)
         (log : list (PutLogEventsInput * (PutLogEventsOutput + error)))
  : option error :=
  match log with
  | [] => e0
  | (_, inl _) :: rest => last_error e0 rest
  | (_, inr e) :: rest => last_error (Some e) rest
  end.

(** [sendBatch] on each of [batches] in turn, each call returning before
    the next starts. *)
Fixpoint send_all (batches : list (list InputLogEvent)) : prog unit :=
  match batches with
  | [] => Ret tt
  | batch :: rest => _ <~ sendBatch batch ;; send_all rest
  end.

(** The batches that are not empty. *)
Definition nonempty_batches (batches : list (list InputLogEvent))
  : list (list InputLogEvent) :=
  List.filter (fun batch => negb (slice_len batch =? 0)) batches.

(** [client_only writes_token p]: [p] only reads fields of the hook and
    calls the client, and stores a sequence token only when
    [writes_token]; it starts nothing and touches neither mutex nor
    channel. *)
Fixpoint client_only {R : Type} (writes_token : bool) (p : prog R)
         {struct p} : Prop :=
  match p with
  | Ret _ => True
  | Panic => True
  | Go _ _ => False
  | Loop body st k =>
    (forall st', client_only writes_token (body st')) /\
    (forall x, client_only writes_token (k x))
  | Do e k =>
    match e with
    | Get _ | LoadDefaultConfig _ | DescribeLogGroups _ | CreateLogGroup _
    | DescribeLogStreams _ | CreateLogStream _ =>
      forall x, client_only writes_token (k x)
    | SetNextSequenceToken _ =>
      writes_token = true /\ forall x, client_only writes_token (k x)
    | _ => False
    end
  end.

(** [s'] differs from [s] at most in the state of the service and in the
    stored sequence token. *)
Definition same_but_cloud_and_token {W : Type} (s s' : @sys W) : Prop :=
  hook s' = set_nextSequenceToken (nextSequenceToken (hook s')) (hook s) /\
  mutex s' = mutex s /\
  ticker s' = ticker s /\
  clock s' = clock s /\
  uploads s' = uploads s /\
  started s' = started s /\
  threads s' = threads s.

(** What a program that only calls the client may change. *)
Definition client_frame {W : Type} (wt : bool) (s s' : @sys W) : Prop :=
  same_but_cloud_and_token s s' /\ (wt = false -> hook s' = hook s).

(** The state [s] with other retention days in the hook. *)
Definition retain {W : Type} (days : Z) (s : @sys W) : @sys W :=
  with_hook (WithGroupRetentionDays days) s.

Definition outcome_map {W R : Type} (f : @sys W -> @sys W)
           (o : @outcome W R) : @outcome W R :=
  match o with
  | Done r s => Done r (f s)
  | Blocked => Blocked
  | Panicked => Panicked
  | OutOfFuel => OutOfFuel
  end.

(** [blind p]: no field that [p] reads depends on the retention days, and
    [p] does not replace the hook. *)
Fixpoint blind {R : Type} (p : prog R) {struct p} : Prop :=
  match p with
  | Ret _ => True
  | Panic => True
  | Go _ k => blind k
  | Loop body st k =>
    (forall st', blind (body st')) /\ (forall x, blind (k x))
  | Do e k =>
    match e in eff X return (X -> prog R) -> Prop with
    | Get field => fun k =>
      (forall h days, field (WithGroupRetentionDays days h) = field h) /\
      forall x, blind (k x)
    | NewHook _ => fun _ => False
    | Now => fun k => forall x, blind (k x)
    | SetNextSequenceToken _ => fun k => forall x, blind (k x)
    | SetErr _ => fun k => forall x, blind (k x)
    | ChanSend _ => fun k => forall x, blind (k x)
    | Select => fun k => forall x, blind (k x)
    | Lock => fun k => forall x, blind (k x)
    | Unlock => fun k => forall x, blind (k x)
    | PutLogEvents _ => fun k => forall x, blind (k x)
    | LoadDefaultConfig _ => fun k => forall x, blind (k x)
    | DescribeLogGroups _ => fun k => forall x, blind (k x)
    | CreateLogGroup _ => fun k => forall x, blind (k x)
    | DescribeLogStreams _ => fun k => forall x, blind (k x)
    | CreateLogStream _ => fun k => forall x, blind (k x)
    end k
  end.

(** A service whose pages of groups and streams never end and never hold
    the name looked for. *)
Definition endless : Client unit :=
  {| svc_LoadDefaultConfig := fun _ _ => None;
     svc_PutLogEvents := fun w _ =>
       (w, inr (ExternalError "ServiceUnavailableException"));
     svc_DescribeLogGroups := fun w _ =>
       (w, inl {| LogGroups := []; groups_out_NextToken := Some "more" |});
     svc_CreateLogGroup := fun w _ => (w, None);
     svc_DescribeLogStreams := fun w _ =>
       (w, inl {| LogStreams := [];
                  streams_out_NextToken := Some "more" |});
     svc_CreateLogStream := fun w _ => (w, None) |}.

(** A service that knows the group "grp" beside "grp-old", and in it the
    stream "str" with upload token "t0". *)
Definition provisioned : Client unit :=
  {| svc_LoadDefaultConfig := fun _ _ => None;
     svc_PutLogEvents := fun w _ =>
       (w, inr (ExternalError "ServiceUnavailableException"));
     svc_DescribeLogGroups := fun w _ =>
       (w, inl {| LogGroups :=
                    [{| group_LogGroupName := Some "grp-old" |};
                     {| group_LogGroupName := Some "grp" |}];
                  groups_out_NextToken := None |});
     svc_CreateLogGroup := fun w _ =>
       (w, Some (ExternalError "ResourceAlreadyExistsException"));
     svc_DescribeLogStreams := fun w _ =>
       (w, inl {| LogStreams :=
                    [{| stream_LogStreamName := Some "str";
                        UploadSequenceToken := Some "t0" |}];
                  streams_out_NextToken := None |});
     svc_CreateLogStream := fun w _ =>
       (w, Some (ExternalError "ResourceAlreadyExistsException")) |}.

(** The limits a batch keeps: at most 10,000 events, and at most
    1,048,576 bytes unless it is a single event. *)
Definition within_limits (batch : list InputLogEvent) : Prop :=
  slice_len batch <= 10000 /\
  (batch_size batch <= 1048576 \/
   exists p, batch = [p] /\ 1048576 < event_size p).

(** [safe HookOK InputOK GoOK Q p]: provided every hook that [p] reads a
    field of satisfies [HookOK], every request [p] uploads satisfies
    [InputOK], every goroutine it starts satisfies [GoOK], and what it
    returns satisfies [Q]; [p] does not replace the hook.  For a loop, some
    property of the loop-carried variables holds at the head of every
    turn. *)
Fixpoint safe {R : Type} (HookOK : CloudWatchLogsHook -> Prop)
         (InputOK : PutLogEventsInput -> Prop) (GoOK : goroutine -> Prop)
         (Q : R -> Prop) (p : prog R) {struct p} : Prop :=
  match p with
  | Ret r => Q r
  | Panic => True
  | Go g k => GoOK g /\ safe HookOK InputOK GoOK Q k
  | Loop body st k =>
    exists J : _ -> Prop,
      J st /\
      forall st',
        J st' ->
        safe HookOK InputOK GoOK
             (fun r => match r with
                       | inl st'' => J st''
                       | inr x => safe HookOK InputOK GoOK Q (k x)
                       end)
             (body st')
  | Do e k =>
    match e in eff X return (X -> prog R) -> Prop with
    | PutLogEvents input => fun k =>
      InputOK input /\ forall r, safe HookOK InputOK GoOK Q (k r)
    | Get field => fun k =>
      forall h, HookOK h -> safe HookOK InputOK GoOK Q (k (field h))
    | NewHook _ => fun _ => False
    | Now => fun k => forall x, safe HookOK InputOK GoOK Q (k x)
    | SetNextSequenceToken _ => fun k =>
      forall x, safe HookOK InputOK GoOK Q (k x)
    | SetErr _ => fun k => forall x, safe HookOK InputOK GoOK Q (k x)
    | ChanSend _ => fun k => forall x, safe HookOK InputOK GoOK Q (k x)
    | Select => fun k => forall x, safe HookOK InputOK GoOK Q (k x)
    | Lock => fun k => forall x, safe HookOK InputOK GoOK Q (k x)
    | Unlock => fun k => forall x, safe HookOK InputOK GoOK Q (k x)
    | LoadDefaultConfig _ => fun k =>
      forall x, safe HookOK InputOK GoOK Q (k x)
    | DescribeLogGroups _ => fun k =>
      forall x, safe HookOK InputOK GoOK Q (k x)
    | CreateLogGroup _ => fun k =>
      forall x, safe HookOK InputOK GoOK Q (k x)
    | DescribeLogStreams _ => fun k =>
      forall x, safe HookOK InputOK GoOK Q (k x)
    | CreateLogStream _ => fun k =>
      forall x, safe HookOK InputOK GoOK Q (k x)
    end k
  end.

(** [HookOK] survives what the goroutines do to the hook: a new token, a
    new cached error, an event sent to the channel, an event taken from
    it. *)
Definition stable (HookOK : CloudWatchLogsHook -> Prop) : Prop :=
  forall h,
    HookOK h ->
    (forall v, HookOK (set_nextSequenceToken v h)) /\
    (forall v, HookOK (set_err v h)) /\
    (forall c ev,
        ch h = Some c ->
        HookOK (set_ch (Some {| capacity := capacity c;
                                buffer := buffer c ++ [ev] |}) h)) /\
    (forall c p rest,
        ch h = Some c ->
        buffer c = p :: rest ->
        HookOK (set_ch (Some {| capacity := capacity c; buffer := rest |})
                       h)).

(** The state of a system all of whose goroutines are [safe]. *)
Definition all_safe {W : Type} (HookOK : CloudWatchLogsHook -> Prop)
           (InputOK : PutLogEventsInput -> Prop) (GoOK : goroutine -> Prop)
           (s : @sys W) : Prop :=
  HookOK (hook s) /\
  Forall (safe HookOK InputOK GoOK (fun _ => True)) (threads s) /\
  Forall (fun u => InputOK (fst u)) (uploads s) /\
  Forall GoOK (started s).

(** ** The batches handed over and the batches uploaded *)

(** [spends b p]: on a hook that has a channel, [p] makes at most one
    upload, of the batch [b] and of no other ([None]: [p] makes no
    upload), and does not replace the hook.  A loop makes no upload. *)
Fixpoint spends {R : Type} (b : option (list InputLogEvent)) (p : prog R)
         {struct p} : Prop :=
  match p with
  | Ret _ => True
  | Panic => True
  | Go _ k => spends b k
  | Loop body st k =>
    (forall st', spends None (body st')) /\ forall x, spends None (k x)
  | Do e k =>
    match e in eff X return (X -> prog R) -> Prop with
    | PutLogEvents input => fun k =>
      b = Some (LogEvents input) /\ forall r, spends None (k r)
    | Get field => fun k => forall h, ch h <> None -> spends b (k (field h))
    | NewHook _ => fun _ => False
    | Now => fun k => forall x, spends b (k x)
    | SetNextSequenceToken _ => fun k => forall x, spends b (k x)
    | SetErr _ => fun k => forall x, spends b (k x)
    | ChanSend _ => fun k => forall x, spends b (k x)
    | Select => fun k => forall x, spends b (k x)
    | Lock => fun k => forall x, spends b (k x)
    | Unlock => fun k => forall x, spends b (k x)
    | LoadDefaultConfig _ => fun k => forall x, spends b (k x)
    | DescribeLogGroups _ => fun k => forall x, spends b (k x)
    | CreateLogGroup _ => fun k => forall x, spends b (k x)
    | DescribeLogStreams _ => fun k => forall x, spends b (k x)
    | CreateLogStream _ => fun k => forall x, spends b (k x)
    end k
  end.

(** The batch a goroutine is started on. *)
Definition batch_of (g : goroutine) : option (list InputLogEvent) :=
  match g with
  | go_sendBatch batch => Some batch
  | go_putBatch => None
  end.

(** The batches among [bs], in order. *)
Fixpoint pending (bs : list (option (list InputLogEvent)))
  : list (list InputLogEvent) :=
  match bs with
  | [] => []
  | Some batch :: rest => batch :: pending rest
  | None :: rest => pending rest
  end.

(** The batches uploaded so far, in the order of the uploads. *)
Definition uploaded {W : Type} (s : @sys W) : list (list InputLogEvent) :=
  map (fun u => LogEvents (fst u)) (uploads s).

(** The books of a hook with a channel balance: the batches uploaded,
    and the batches that the goroutines may still upload, one each, are
    together the batches that [sendBatch] was started on. *)
Definition balanced {W : Type} (s : @sys W) : Prop :=
  ch (hook s) <> None /\
  exists bs : list (option (list InputLogEvent)),
    Forall2 spends bs (threads s) /\
    Permutation (uploaded s ++ pending bs) (batches_of (started s)).

(** More sample data. *)
Definition info_entry : Entry :=
  {| EntryLevel := InfoLevel; EntryString := inl "level=info msg=started" |}.

(** A caller writes with a channel, [putBatch] takes the event, the ticker
    fires, [putBatch] starts [sendBatch], which uploads the batch. *)
Definition batch_then_upload : list action :=
  [CallWrite "a"] ++ repeat (Sched 1 true) 4 ++
  repeat (Sched 0 true) 2 ++ [Tick] ++ repeat (Sched 0 true) 3 ++
  repeat (Sched 2 true) 7.

(** The sample hook on the scripted service, the clock at
    1,700,000,000.123456789 seconds. *)
Definition clocked_state : @sys (list (PutLogEventsOutput + error)) :=
  with_clock 1700000000123456789 (initial example_hook []).



(** * Proofs *)

(** ** Single calls *)

Section Calls.

Context {W : Type} (client : Client W).

Lemma with_mutex_free (s : @sys W) (t : nat) :
  mutex s = None -> with_mutex None (with_mutex (Some t) s) = s.
Proof. destruct s; simpl; intros ->; reflexivity. Qed.

(** An unbatched [Write] runs to its return: one upload of the one event,
    then the new token on success and the error on failure. *)
Lemma Write_direct_exec (msg : string) (fuel t : nat) (s : @sys W) :
  ch (hook s) = None ->
  mutex s = None ->
  let event := {| Message := msg;
                  Timestamp := Z.quot (int64_wrap (1 * clock s)) 1000000 |} in
  let input := request (hook s) [event] in
  let wr := svc_PutLogEvents client (cloud s) input in
  exec client (Write msg) fuel t s =
  match snd wr with
  | inl result =>
    Done (len msg, None)
         (with_hook (set_nextSequenceToken (NextSequenceToken result))
                    (with_upload (fst wr) (input, snd wr) s))
  | inr e => Done (0, Some e) (with_upload (fst wr) (input, snd wr) s)
  end.
Proof.
  intros Hch Hm. destruct s as [h m tk c w ups st ths]; simpl in *.
  subst m. rewrite Hch. simpl. unfold request; simpl.
  destruct (svc_PutLogEvents client w _) as [w' [result | e]]; reflexivity.
Qed.

(** A batched [Write] with room in the channel runs to its return: the
    event is queued, and a cached error is returned and cleared. *)
Lemma Write_batched_exec (msg : string) (fuel t : nat) (s : @sys W)
      (c : channel) :
  ch (hook s) = Some c ->
  slice_len (buffer c) < capacity c ->
  let event := {| Message := msg;
                  Timestamp := Z.quot (int64_wrap (1 * clock s)) 1000000 |} in
  let queued := with_hook (set_ch (Some {| capacity := capacity c;
                                           buffer := buffer c ++ [event] |}))
                          s in
  exec client (Write msg) fuel t s =
  match err (hook s) with
  | Some e => Done (0, Some (fmt_Errorf "" e))
                   (with_hook (set_err None) queued)
  | None => Done (len msg, None) queued
  end.
Proof.
  intros Hch Hroom. destruct s as [h m tk cl w ups st ths]; simpl in *.
  rewrite Hch. simpl. rewrite Hch.
  destruct (Z.ltb_spec (slice_len (buffer c)) (capacity c)); [|lia].
  simpl. destruct h as [g sn tok rd kms tg lf c0 [e|]]; reflexivity.
Qed.

(** [sendBatch] on a batch that is not empty runs to its return: one
    upload of the batch, then the new token or the cached error. *)
Lemma sendBatch_exec (batch : list InputLogEvent) (fuel t : nat)
      (s : @sys W) :
  batch <> [] ->
  mutex s = None ->
  let input := request (hook s) batch in
  let wr := svc_PutLogEvents client (cloud s) input in
  exec client (sendBatch batch) fuel t s =
  Done tt
       (with_hook (match snd wr with
                   | inl result =>
                     set_nextSequenceToken (NextSequenceToken result)
                   | inr e => set_err (Some e)
                   end)
                  (with_upload (fst wr) (input, snd wr) s)).
Proof.
  intros Hne Hm. destruct s as [h m tk c w ups st ths]; simpl in *.
  subst m. destruct batch as [|p batch]; [congruence|].
  unfold sendBatch, request; simpl.
  destruct (svc_PutLogEvents client w _) as [w' [result | e]]; reflexivity.
Qed.

Lemma sendBatch_empty_exec (fuel t : nat) (s : @sys W) :
  mutex s = None ->
  exec client (sendBatch []) fuel t s = Done tt s.
Proof.
  intros Hm. simpl. rewrite Hm. simpl.
  rewrite with_mutex_free by assumption. reflexivity.
Qed.

(** Whenever [sendBatch] returns, it has uploaded nothing, or made one
    upload that carries exactly its batch. *)
Lemma sendBatch_uploads_its_batch (batch : list InputLogEvent)
      (fuel t : nat) (s s' : @sys W) :
  exec client (sendBatch batch) fuel t s = Done tt s' ->
  uploads s' = uploads s \/
  exists answer,
    uploads s' = uploads s ++ [(request (hook s) batch, answer)].
Proof.
  intros Hrun. destruct (mutex s) as [t0|] eqn:Hm.
  - simpl in Hrun. rewrite Hm in Hrun. discriminate.
  - destruct batch as [|p batch].
    + rewrite sendBatch_empty_exec in Hrun by assumption.
      injection Hrun as <-. left. reflexivity.
    + rewrite sendBatch_exec in Hrun by (assumption || discriminate).
      injection Hrun as <-. right. eexists. reflexivity.
Qed.

End Calls.

(** ** The batching loop *)

Lemma length_fill (n : nat) : String.length (fill n) = n.
Proof. induction n as [|n IH]; simpl; [reflexivity | now rewrite IH]. Qed.

Lemma len_big_message : len big_message = 1048551.
Proof.
  unfold len, big_message. rewrite length_fill.
  apply Z2Nat.id. lia.
Qed.

Lemma event_size_big_event : event_size big_event = 1048577.
Proof. unfold event_size, big_event; simpl. rewrite len_big_message. lia. Qed.

Global Opaque big_message.

Lemma len_nonneg (s : string) : 0 <= len s.
Proof. unfold len. lia. Qed.

Lemma event_size_pos (p : InputLogEvent) : 26 <= event_size p.
Proof. unfold event_size. pose proof (len_nonneg (Message p)). lia. Qed.

Lemma batch_size_nonneg (batch : list InputLogEvent) : 0 <= batch_size batch.
Proof.
  induction batch as [|p batch IH]; simpl; [lia|].
  pose proof (event_size_pos p). lia.
Qed.

Lemma batch_size_app (b1 b2 : list InputLogEvent) :
  batch_size (b1 ++ b2) = batch_size b1 + batch_size b2.
Proof. induction b1 as [|p b1 IH]; simpl; [reflexivity | lia]. Qed.

Lemma slice_len_app {A : Type} (l1 l2 : list A) :
  slice_len (l1 ++ l2) = slice_len l1 + slice_len l2.
Proof. unfold slice_len. rewrite length_app. lia. Qed.

(** A turn that receives event [p] from the channel. *)
Lemma feed_iteration_ch (batch : list InputLogEvent) (size : Z)
      (p : InputLogEvent) :
  feed (putBatch_iteration (batch, size)) (case_ch p) =
  if (size + event_size p >? 1048576) || (slice_len batch =? 10000)
  then Some ([go_sendBatch batch], inl ([p], event_size p))
  else Some ([], inl (batch ++ [p], size + event_size p)).
Proof.
  unfold putBatch_iteration, event_size. simpl.
  destruct ((size + (len (Message p) + 26) >? 1048576)
            || (slice_len batch =? 10000)); reflexivity.
Qed.

(** A turn that receives a tick. *)
Lemma feed_iteration_ticker (batch : list InputLogEvent) (size : Z) :
  feed (putBatch_iteration (batch, size)) case_ticker =
  Some ([go_sendBatch batch], inl ([], 0)).
Proof. reflexivity. Qed.

(** In the system, a turn whose [select] yields [x] does what [feed] says:
    it returns the same loop state and starts the same goroutines. *)
Lemma putBatch_iteration_exec {W : Type} (client : Client W)
      (st : list InputLogEvent * Z) (x : select_case) (fuel t : nat)
      (s s1 : @sys W) :
  handle client t true Select s = Some (x, s1) ->
  exec client (putBatch_iteration st) fuel t s =
  match feed (putBatch_iteration st) x with
  | Some (gs, r) => Done r (fold_left (fun s g => start g s) gs s1)
  | None => Blocked
  end.
Proof.
  intros Hsel. destruct st as [batch size].
  unfold putBatch_iteration. cbn [exec]. rewrite Hsel.
  destruct x as [p|]; [|reflexivity]. cbn [feed].
  destruct ((size + (len (Message p) + 26) >? 1048576)
            || (slice_len batch =? 10000)); reflexivity.
Qed.

(** Every turn keeps [loop_inv], and starts [sendBatch] at most once, on
    the batch held at the head of the turn. *)
Lemma feed_iteration_inv (st : list InputLogEvent * Z) (x : select_case) :
  loop_inv st ->
  exists gs st',
    feed (putBatch_iteration st) x = Some (gs, inl st') /\
    loop_inv st' /\
    (gs = [] \/ gs = [go_sendBatch (fst st)]).
Proof.
  destruct st as [batch size]. intros (Hsize & Hlen & Hbytes).
  destruct x as [p|].
  - rewrite feed_iteration_ch.
    pose proof (event_size_pos p) as Hp.
    destruct ((size + event_size p >? 1048576) || (slice_len batch =? 10000))
      eqn:Hcond.
    + eexists _, _. split; [reflexivity|]. split; [|right; reflexivity].
      simpl. split; [lia|]. split; [unfold slice_len; simpl; lia|].
      destruct (Z_le_gt_dec (event_size p) 1048576) as [Hle|Hgt].
      * left. lia.
      * right. exists p. split; [reflexivity | lia].
    + apply orb_false_iff in Hcond as [Hs Hc].
      rewrite Z.gtb_ltb in Hs. apply Z.ltb_ge in Hs.
      apply Z.eqb_neq in Hc.
      eexists _, _. split; [reflexivity|]. split; [|left; reflexivity].
      simpl. rewrite batch_size_app, slice_len_app. simpl.
      split; [lia|]. split; [unfold slice_len in *; simpl; lia|].
      left. lia.
  - rewrite feed_iteration_ticker.
    eexists _, _. split; [reflexivity|]. split; [|right; reflexivity].
    simpl. split; [reflexivity|]. split; [unfold slice_len; simpl; lia|].
    left. lia.
Qed.

(** Over any sequence of inputs the loop goes on, keeps [loop_inv], and
    every batch it hands to [sendBatch] satisfied [loop_inv]'s bounds. *)
Lemma putBatch_trace_inv (inputs : list select_case)
      (st : list InputLogEvent * Z) :
  loop_inv st ->
  exists gs st',
    putBatch_trace st inputs = Some (gs, st') /\
    loop_inv st' /\
    forall g, In g gs ->
      exists batch, g = go_sendBatch batch /\
        slice_len batch <= 10000 /\
        (batch_size batch <= 1048576 \/
         exists p, batch = [p] /\ 1048576 < event_size p).
Proof.
  revert st. induction inputs as [|x rest IH]; intros st Hinv.
  - exists [], st. split; [reflexivity|]. split; [assumption|].
    intros g [].
  - destruct (feed_iteration_inv st x Hinv) as (gs & st1 & Hfeed & Hinv1 & Hgs).
    destruct (IH st1 Hinv1) as (gs' & st2 & Htrace & Hinv2 & Hall).
    exists (gs ++ gs'), st2. simpl. rewrite Hfeed, Htrace.
    split; [reflexivity|]. split; [assumption|].
    intros g Hin. apply in_app_or in Hin as [Hin|Hin]; [|auto].
    destruct Hgs as [-> | ->]; [destruct Hin|].
    destruct Hin as [<- | []]. exists (fst st). split; [reflexivity|].
    destruct st as [batch size]. simpl. destruct Hinv as (_ & ? & ?). auto.
Qed.

Lemma loop_inv_start : loop_inv ([], 0).
Proof. simpl. split; [reflexivity|]. split; [unfold slice_len; simpl; lia|]. left. lia. Qed.

(** ** The lock discipline *)

Lemma disciplined_bind {A : Type} (p : prog A) :
  forall (B : Type) (f : A -> prog B) (m : mode),
    disciplined m p ->
    (forall a, disciplined Free (f a)) ->
    disciplined m (bind p f).
Proof.
  induction p as [A r | A | A X e k IH | A g k IH | A S T body IHbody st k IH];
    intros B f m Hp Hf; simpl in *.
  - subst m. apply Hf.
  - assumption.
  - destruct e; simpl in *;
      try (intros x; apply IH; [apply Hp | assumption]).
    + intros h Hh. apply IH; [apply Hp; assumption | assumption].
    + destruct m; [contradiction|]. apply IH; assumption.
    + destruct Hp as [-> Hp]. split; [reflexivity|].
      intros tok. apply IH; [apply Hp | assumption].
    + destruct m; [contradiction|]. destruct Hp as [-> Hp].
      split; [reflexivity|]. apply IH; assumption.
    + destruct m; [contradiction|]. destruct Hp as (-> & -> & Hp).
      split; [reflexivity|]. split; [reflexivity|].
      intros r. apply IH; [apply Hp | assumption].
    + contradiction.
  - apply IH; assumption.
  - destruct Hp as (-> & Hbody & Hk). split; [reflexivity|].
    split; [assumption|]. intros x. apply IH; [apply Hk | assumption].
Qed.

Lemma Write_disciplined (msg : string) : disciplined Free (Write msg).
Proof.
  unfold Write. simpl. intros now h _. destruct (ch h); simpl.
  - intros [] h1 _. destruct (err h1); simpl; [|reflexivity].
    intros h2 _ []. destruct (err h2); reflexivity.
  - split; [reflexivity|]. intros tok h1 _ h2 _ h3 Htok. subst tok.
    split; [reflexivity|]. split; [reflexivity|].
    intros [result | e]; simpl.
    + split; reflexivity.
    + split; reflexivity.
Qed.

Lemma Fire_disciplined (entry : Entry) : disciplined Free (Fire entry).
Proof.
  unfold Fire. destruct (EntryString entry); [|reflexivity].
  destruct (EntryLevel entry); try reflexivity;
    (apply disciplined_bind; [apply Write_disciplined|]);
    intros [n e]; reflexivity.
Qed.

Lemma sendBatch_disciplined (batch : list InputLogEvent) :
  disciplined Free (sendBatch batch).
Proof.
  unfold sendBatch. simpl. split; [reflexivity|]. intros tok.
  destruct (slice_len batch =? 0); simpl.
  - split; reflexivity.
  - intros h1 _ h2 _ h3 Htok. subst tok.
    split; [reflexivity|]. split; [reflexivity|].
    intros [result | e]; simpl.
    + split; reflexivity.
    + intros []. split; reflexivity.
Qed.

Lemma putBatch_disciplined : disciplined Free putBatch.
Proof.
  unfold putBatch. simpl. split; [reflexivity|]. split; [|intros []].
  intros [batch size]. simpl. intros [p|]; simpl; [|reflexivity].
  destruct ((size + (len (Message p) + 26) >? 1048576)
            || (slice_len batch =? 10000)); reflexivity.
Qed.

Lemma body_of_disciplined (g : goroutine) : disciplined Free (body_of g).
Proof.
  destruct g; [apply putBatch_disciplined | apply sendBatch_disciplined].
Qed.

(** ** The invariant of the interleaved system *)

Lemma token_after_snoc (tok : option string)
      (log : list (PutLogEventsInput * (PutLogEventsOutput + error)))
      (input : PutLogEventsInput) (r : PutLogEventsOutput + error) :
  token_after tok (log ++ [(input, r)]) =
  match r with
  | inl result => NextSequenceToken result
  | inr _ => token_after tok log
  end.
Proof.
  revert tok. induction log as [|[i [res|e]] log IH]; intros tok; simpl.
  - destruct r; reflexivity.
  - apply IH.
  - apply IH.
Qed.

Lemma threaded_snoc (tok : option string)
      (log : list (PutLogEventsInput * (PutLogEventsOutput + error)))
      (input : PutLogEventsInput) (r : PutLogEventsOutput + error) :
  threaded tok log ->
  SequenceToken input = token_after tok log ->
  threaded tok (log ++ [(input, r)]).
Proof.
  revert tok. induction log as [|[i [res|e]] log IH]; intros tok; simpl.
  - intros _ H. split; [assumption | exact I].
  - intros [H1 H2] H. split; [assumption|]. apply IH; assumption.
  - intros [H1 H2] H. split; [assumption|]. apply IH; assumption.
Qed.

Lemma mode_of_other (mx mx' : option nat) (e e' st st' : option string)
      (t t' : nat) :
  t' <> t ->
  (mx = None \/ mx = Some t) ->
  (mx' = None \/ mx' = Some t) ->
  mode_of mx' e' st' t' = mode_of mx e st t'.
Proof.
  intros Hne Hm Hm'. unfold mode_of.
  assert (Nat.eqb t' t = false) as Hf by (apply Nat.eqb_neq; assumption).
  destruct Hm as [-> | ->], Hm' as [-> | ->]; rewrite ?Hf; reflexivity.
Qed.

(** Goroutine [t] takes a step to [p'] and the others keep their modes. *)
Lemma threads_ok_step (mx mx' : option nat) (e e' st st' : option string)
      (ths : list (prog unit)) (t : nat) (p' : prog unit) :
  threads_ok mx e st ths ->
  (forall t', t' <> t -> mode_of mx' e' st' t' = mode_of mx e st t') ->
  disciplined (mode_of mx' e' st' t) p' ->
  threads_ok mx' e' st' (<[t := p']> ths).
Proof.
  intros Hok Hothers Hp' t' p Hlook.
  destruct (Nat.eq_dec t' t) as [-> | Hne].
  - destruct (Nat.lt_ge_cases t (length ths)) as [Hlt | Hge].
    + rewrite list_lookup_insert_eq in Hlook by assumption.
      injection Hlook as <-. assumption.
    + rewrite list_insert_ge in Hlook by assumption.
      apply lookup_lt_Some in Hlook. lia.
  - rewrite list_lookup_insert_ne in Hlook by congruence.
    rewrite Hothers by assumption. apply Hok. assumption.
Qed.

(** A new goroutine joins the pool. *)
Lemma threads_ok_app (mx : option nat) (e st : option string)
      (ths : list (prog unit)) (p : prog unit) :
  threads_ok mx e st ths ->
  (forall t, mx = Some t -> (t < length ths)%nat) ->
  disciplined Free p ->
  threads_ok mx e st (ths ++ [p]).
Proof.
  intros Hok Hholder Hp t q Hlook.
  destruct (Nat.lt_ge_cases t (length ths)) as [Hlt | Hge].
  - rewrite lookup_app_l in Hlook by assumption. apply Hok. assumption.
  - rewrite lookup_app_r in Hlook by assumption.
    assert (mode_of mx e st t = Free) as ->.
    { unfold mode_of. destruct mx as [t'|]; [|reflexivity].
      specialize (Hholder t' eq_refl).
      destruct (Nat.eqb_spec t t'); [lia | reflexivity]. }
    destruct (t - length ths)%nat; simpl in Hlook; [|discriminate].
    injection Hlook as <-. assumption.
Qed.

Lemma mode_of_Held_inv (mx : option nat) (e st e' st' : option string)
      (t : nat) :
  mode_of mx e st t = Held e' st' -> mx = Some t /\ e' = e /\ st' = st.
Proof.
  unfold mode_of. destruct mx as [t'|]; [|discriminate].
  destruct (Nat.eqb_spec t t'); [|discriminate].
  intros [= -> ->]. subst. auto.
Qed.

Lemma mode_of_holder (e st : option string) (t : nat) :
  mode_of (Some t) e st t = Held e st.
Proof. unfold mode_of. rewrite Nat.eqb_refl. reflexivity. Qed.

Section Interleaving.

Context {W : Type} (client : Client W).

(** A step of goroutine [t] that touches neither the mutex, nor the
    stored token, nor the log of uploads. *)
Lemma Inv_same_view (tok0 : option string) (s s1 : @sys W) (t : nat)
      (p' : prog unit) :
  Inv tok0 s ->
  uploads s1 = uploads s ->
  mutex s1 = mutex s ->
  nextSequenceToken (hook s1) = nextSequenceToken (hook s) ->
  threads s1 = threads s ->
  disciplined (mode_of (mutex s) (token_after tok0 (uploads s))
                       (nextSequenceToken (hook s)) t) p' ->
  Inv tok0 (with_threads (<[t := p']> (threads s1)) s1).
Proof.
  intros (Hthr & Hfree & Hholder & Hok) Hu Hm Hn Hths Hp'.
  unfold Inv; simpl. rewrite Hu, Hm, Hn, Hths.
  split; [assumption|]. split; [assumption|]. split.
  - intros t' Ht'. rewrite length_insert. auto.
  - eapply threads_ok_step; [exact Hok | reflexivity | exact Hp'].
Qed.

Lemma Inv_new_thread (tok0 : option string) (s : @sys W) (p : prog unit) :
  Inv tok0 s ->
  disciplined Free p ->
  Inv tok0 (with_threads (threads s ++ [p]) s).
Proof.
  intros (Hthr & Hfree & Hholder & Hok) Hp. unfold Inv; simpl.
  split; [assumption|]. split; [assumption|]. split.
  - intros t' Ht'. rewrite length_app. specialize (Hholder t' Ht'). lia.
  - apply threads_ok_app; assumption.
Qed.

(** The operation whose outcome is [Hh] left the mutex, the token and the
    log of uploads alone. *)
Ltac same_view Hh s :=
  injection Hh as <- <-; apply Inv_same_view with (s := s); auto.

(** An operation of a goroutine keeps the invariant. *)
Lemma Inv_handle (tok0 : option string) (s s1 : @sys W) (t : nat)
      (pick : bool) {X : Type} (e : eff X) (k : X -> prog unit) (x : X) :
  Inv tok0 s ->
  threads s !! t = Some (Do e k) ->
  handle client t pick e s = Some (x, s1) ->
  Inv tok0 (with_threads (<[t := k x]> (threads s1)) s1).
Proof.
  intros HInv Hlook Hh.
  pose proof HInv as (Hthr & Hfree & Hholder & Hok).
  pose proof (Hok t _ Hlook) as Hp.
  pose proof (lookup_lt_Some _ _ _ Hlook) as Hlt.
  destruct e; simpl in Hh, Hp.
  - (* Now *)
    same_view Hh s.
  - (* Get *)
    same_view Hh s.
    apply Hp.
    destruct (mode_of _ _ _ t) eqn:Hmode; [exact I|].
    apply mode_of_Held_inv in Hmode as (_ & _ & ->). reflexivity.
  - (* SetNextSequenceToken *)
    injection Hh as <- <-.
    destruct (mode_of _ _ _ t) eqn:Hmode; [contradiction|].
    apply mode_of_Held_inv in Hmode as (Hm & -> & ->).
    unfold Inv; simpl. rewrite Hm.
    split; [assumption|]. split; [discriminate|]. split.
    + intros t' [= <-]. rewrite length_insert. assumption.
    + rewrite Hm in Hok.
      eapply threads_ok_step; [exact Hok | |].
      * intros t' Hne. apply mode_of_other with (t := t); auto.
      * rewrite mode_of_holder. assumption.
  - (* SetErr *)
    same_view Hh s.
  - (* ChanSend *)
    destruct (ch (hook s)) as [c|]; [|discriminate].
    destruct (slice_len (buffer c) <? capacity c); [|discriminate].
    same_view Hh s.
  - (* Select *)
    destruct (match ch (hook s) with
              | Some c =>
                match buffer c with
                | p :: rest =>
                  Some (p, {| capacity := capacity c; buffer := rest |})
                | [] => None
                end
              | None => None
              end) as [[p c']|];
      destruct (ticker s); try discriminate;
      try destruct pick;
      same_view Hh s.
  - (* Lock *)
    destruct (mutex s) as [t0|] eqn:Hm; [discriminate|].
    injection Hh as <- <-. simpl in Hp. destruct Hp as [_ Hp].
    unfold Inv; simpl.
    split; [assumption|]. split; [discriminate|]. split.
    + intros t' [= <-]. rewrite length_insert. assumption.
    + eapply threads_ok_step; [exact Hok | |].
      * intros t' Hne. apply mode_of_other with (t := t); auto.
      * rewrite mode_of_holder. rewrite (Hfree eq_refl). apply Hp.
  - (* Unlock *)
    destruct (mutex s) as [t0|] eqn:Hm; [|discriminate].
    injection Hh as <- <-.
    destruct (mode_of _ _ _ t) eqn:Hmode; [contradiction|].
    apply mode_of_Held_inv in Hmode as ([= ->] & -> & ->).
    destruct Hp as [Heq Hp].
    unfold Inv; simpl.
    split; [assumption|]. split; [intros _; congruence|]. split.
    + discriminate.
    + eapply threads_ok_step; [exact Hok | |].
      * intros t' Hne. apply mode_of_other with (t := t); auto.
      * exact Hp.
  - (* PutLogEvents *)
    destruct (svc_PutLogEvents client (cloud s) input) as [w r].
    injection Hh as <- <-.
    destruct (mode_of _ _ _ t) eqn:Hmode; [contradiction|].
    apply mode_of_Held_inv in Hmode as (Hm & -> & ->).
    destruct Hp as (Htok & Hagree & Hp).
    unfold Inv; simpl. rewrite Hm, token_after_snoc.
    split; [apply threaded_snoc; congruence|].
    split; [discriminate|]. split.
    + intros t' [= <-]. rewrite length_insert. assumption.
    + rewrite Hm in Hok.
      eapply threads_ok_step; [exact Hok | |].
      * intros t' Hne. apply mode_of_other with (t := t); auto.
      * rewrite mode_of_holder. apply Hp.
  - (* LoadDefaultConfig *)
    same_view Hh s.
  - (* NewHook *)
    contradiction.
  - (* DescribeLogGroups *)
    destruct (svc_DescribeLogGroups client (cloud s) input) as [w r].
    same_view Hh s.
  - (* CreateLogGroup *)
    destruct (svc_CreateLogGroup client (cloud s) input) as [w r].
    same_view Hh s.
  - (* DescribeLogStreams *)
    destruct (svc_DescribeLogStreams client (cloud s) input) as [w r].
    same_view Hh s.
  - (* CreateLogStream *)
    destruct (svc_CreateLogStream client (cloud s) input) as [w r].
    same_view Hh s.
Qed.

Lemma Inv_step (tok0 : option string) (s s' : @sys W) (a : action) :
  Inv tok0 s -> step client s a = Some s' -> Inv tok0 s'.
Proof.
  intros HInv Hstep. destruct a as [msg | entry | | now | t pick];
    simpl in Hstep.
  - injection Hstep as <-. apply Inv_new_thread; [assumption|].
    apply disciplined_bind; [apply Write_disciplined | reflexivity].
  - injection Hstep as <-. apply Inv_new_thread; [assumption|].
    apply disciplined_bind; [apply Fire_disciplined | reflexivity].
  - injection Hstep as <-. exact HInv.
  - injection Hstep as <-. exact HInv.
  - destruct (threads s !! t) as [p|] eqn:Hlook; [|discriminate].
    pose proof HInv as (Hthr & Hfree & Hholder & Hok).
    pose proof (Hok t _ Hlook) as Hp.
    destruct p as [r | | X e k | g k | S T body st k]; try discriminate.
    + destruct (handle client t pick e s) as [[x s1]|] eqn:Hh;
        [|discriminate].
      injection Hstep as <-. eapply Inv_handle; eassumption.
    + injection Hstep as <-. simpl in Hp.
      apply Inv_same_view with (s := with_threads (threads s ++ [body_of g]) s);
        try reflexivity; [|assumption].
      apply Inv_new_thread; [assumption | apply body_of_disciplined].
    + injection Hstep as <-. simpl in Hp. destruct Hp as (Hmode & Hbody & Hk).
      apply Inv_same_view with (s := s); try reflexivity; [assumption|].
      rewrite Hmode. apply disciplined_bind; [apply Hbody|].
      intros [st' | x]; simpl; auto.
Qed.

Lemma Inv_run (tok0 : option string) (schedule : list action) :
  forall s s' : @sys W,
    Inv tok0 s -> run client s schedule = Some s' -> Inv tok0 s'.
Proof.
  induction schedule as [|a rest IH]; intros s s' HInv Hrun; simpl in Hrun.
  - injection Hrun as <-. assumption.
  - destruct (step client s a) as [s1|] eqn:Hstep; [|discriminate].
    apply (IH s1); [eapply Inv_step; eassumption | assumption].
Qed.

Lemma Inv_initial (h : CloudWatchLogsHook) (w : W) :
  Inv (nextSequenceToken h) (initial h w).
Proof.
  unfold Inv, initial; simpl.
  split; [exact I|]. split; [reflexivity|]. split; [discriminate|].
  intros t p Hlook. unfold mode_of.
  destruct (ch h); [|destruct t; discriminate].
  destruct t as [|t]; simpl in Hlook; [|destruct t; discriminate].
  injection Hlook as <-. apply putBatch_disciplined.
Qed.

(** A goroutine about to upload holds the mutex, and its request carries
    the stored token. *)
Lemma Inv_uploading (tok0 : option string) (s : @sys W) (t : nat)
      (input : PutLogEventsInput)
      (k : PutLogEventsOutput + error -> prog unit) :
  Inv tok0 s ->
  threads s !! t = Some (Do (PutLogEvents input) k) ->
  mutex s = Some t /\ SequenceToken input = nextSequenceToken (hook s).
Proof.
  intros (_ & _ & _ & Hok) Hlook.
  specialize (Hok t _ Hlook). simpl in Hok.
  destruct (mode_of _ _ _ t) eqn:Hmode; [contradiction|].
  apply mode_of_Held_inv in Hmode as (Hm & _ & ->).
  destruct Hok as (Htok & _). auto.
Qed.

End Interleaving.

(** ** Properties of the batching loop *)

(** C1, amended.  Over every sequence of events and ticks that [putBatch]
    receives, the loop keeps running, and every goroutine it starts is a
    [sendBatch] on a batch of at most 10,000 events, whose cumulative size,
    each event counting its message length plus 26 bytes, is at most
    1,048,576 bytes unless the batch is one single event that alone counts
    more than 1,048,576 bytes; and an upload made by that goroutine
    carries exactly that batch. *)
Theorem putBatch_batches_within_limits (inputs : list select_case) :
  exists gs st,
    putBatch_trace ([], 0) inputs = Some (gs, st) /\
    forall g, In g gs ->
      exists batch,
        g = go_sendBatch batch /\
        slice_len batch <= 10000 /\
        (batch_size batch <= 1048576 \/
         exists p, batch = [p] /\ 1048576 < event_size p) /\
        forall (W : Type) (client : Client W) (fuel t : nat) (s s' : @sys W),
          exec client (body_of g) fuel t s = Done tt s' ->
          uploads s' = uploads s \/
          exists answer,
            uploads s' = uploads s ++ [(request (hook s) batch, answer)].
Proof.
  destruct (putBatch_trace_inv inputs ([], 0) loop_inv_start)
    as (gs & st & Htrace & _ & Hall).
  exists gs, st. split; [assumption|].
  intros g Hin. destruct (Hall g Hin) as (batch & -> & Hcount & Hbytes).
  exists batch. repeat (split; [assumption || reflexivity|]).
  intros W client fuel t s s' Hrun.
  apply (sendBatch_uploads_its_batch client batch fuel t s s' Hrun).
Qed.

(** C1 as stated fails: an event whose message has 1,048,551 bytes,
    followed by a tick, makes the loop hand [sendBatch] a batch of
    1,048,577 bytes, which [sendBatch] uploads. *)
Lemma putBatch_single_event_over_1MiB :
  putBatch_trace ([], 0) [case_ch big_event; case_ticker] =
  Some ([go_sendBatch []; go_sendBatch [big_event]], ([], 0)) /\
  1048576 < batch_size [big_event] /\
  exists s',
    exec scripted (body_of (go_sendBatch [big_event])) 0 1
         (initial batched_hook [])
    = Done tt s' /\
    map (fun u => LogEvents (fst u)) (uploads s') = [[big_event]].
Proof.
  split; [|split].
  - unfold putBatch_trace. rewrite feed_iteration_ch.
    rewrite event_size_big_event. reflexivity.
  - simpl. rewrite event_size_big_event. lia.
  - eexists. split.
    + apply (sendBatch_exec scripted [big_event] 0 1
                            (initial batched_hook []));
        [discriminate | reflexivity].
    + reflexivity.
Qed.

(** C5.  Whatever the loop has received so far, if the next event would
    take the current batch past 10,000 events or past 1,048,576 bytes
    (26 bytes of overhead per event included), the turn that receives the
    event starts [sendBatch] on the accumulated batch, with no tick
    involved, and the new batch holds that event alone. *)
Theorem putBatch_flushes_early (inputs : list select_case)
        (gs : list goroutine) (batch : list InputLogEvent) (size : Z)
        (p : InputLogEvent) :
  putBatch_trace ([], 0) inputs = Some (gs, (batch, size)) ->
  10000 < slice_len batch + 1 \/
  1048576 < batch_size batch + event_size p ->
  feed (putBatch_iteration (batch, size)) (case_ch p) =
  Some ([go_sendBatch batch], inl ([p], event_size p)).
Proof.
  intros Htrace Hover.
  destruct (putBatch_trace_inv inputs ([], 0) loop_inv_start)
    as (gs' & st' & Htrace' & Hinv & _).
  rewrite Htrace in Htrace'. injection Htrace' as <- <-.
  destruct Hinv as (Hsize & Hlen & _).
  rewrite feed_iteration_ch.
  assert ((size + event_size p >? 1048576) || (slice_len batch =? 10000)
          = true) as ->; [|reflexivity].
  apply orb_true_iff. destruct Hover as [Hcount | Hbytes].
  - right. apply Z.eqb_eq. lia.
  - left. rewrite Z.gtb_ltb. apply Z.ltb_lt. lia.
Qed.

(** ** The constructor and the channel *)

Lemma keeps_ch_bind {A : Type} (p : prog A) :
  forall (B : Type) (f : A -> prog B),
    keeps_ch p -> (forall a, keeps_ch (f a)) -> keeps_ch (bind p f).
Proof.
  induction p as [A r | A | A X e k IH | A g k IH | A S T body IHbody st k IH];
    intros B f Hp Hf; simpl in *.
  - apply Hf.
  - exact I.
  - destruct e; try contradiction; intros x; apply IH; auto.
  - apply IH; assumption.
  - destruct Hp as [Hbody Hk]. split; [assumption|].
    intros x. apply IH; auto.
Qed.

Lemma findLogGroup_keeps_ch : keeps_ch findLogGroup.
Proof.
  unfold findLogGroup; simpl. split; [|intros; exact I].
  intros nextToken g [result | e]; simpl; [|exact I].
  destruct (find _ _); simpl; [exact I|].
  destruct (groups_out_NextToken result); exact I.
Qed.

Lemma findLogStream_keeps_ch : keeps_ch findLogStream.
Proof.
  unfold findLogStream; simpl. split; [|intros; exact I].
  intros nextToken g s [result | e]; simpl; [|exact I].
  destruct (find _ _); simpl; [intros; exact I|].
  destruct (streams_out_NextToken result); exact I.
Qed.

Lemma createLogGroup_keeps_ch : keeps_ch createLogGroup.
Proof.
  unfold createLogGroup. apply keeps_ch_bind; [apply findLogGroup_keeps_ch|].
  intros [[grp|] [e|]]; simpl; try exact I.
  intros g tg k [e|]; exact I.
Qed.

Lemma createLogStream_keeps_ch : keeps_ch createLogStream.
Proof.
  unfold createLogStream. apply keeps_ch_bind; [apply findLogStream_keeps_ch|].
  intros [[str|] [e|]]; try exact I.
  hnf. intros g. hnf. intros s. hnf. intros [e|]; [exact I|].
  apply keeps_ch_bind; [apply findLogStream_keeps_ch|].
  intros [str [e|]]; exact I.
Qed.

Section Constructor.

Context {W : Type} (client : Client W).

Lemma exec_loop_bind {A B S T : Type}
      (turn : S -> @sys W -> outcome (S + T))
      (leave : T -> @sys W -> outcome A)
      (leave' : T -> @sys W -> outcome B)
      (after : A -> @sys W -> outcome B) :
  (forall x s, leave' x s =
               match leave x s with
               | Done a s' => after a s'
               | Blocked => Blocked
               | Panicked => Panicked
               | OutOfFuel => OutOfFuel
               end) ->
  forall n st s,
    exec_loop turn leave' n st s =
    match exec_loop turn leave n st s with
    | Done a s' => after a s'
    | Blocked => Blocked
    | Panicked => Panicked
    | OutOfFuel => OutOfFuel
    end.
Proof.
  intros Hleave. induction n as [|n IH]; intros st s; simpl; [reflexivity|].
  destruct (turn st s) as [[st' | x] s1 | | |]; auto.
Qed.

(** Running [p] and then [f] on its result. *)
Lemma exec_bind {A : Type} (p : prog A) :
  forall (B : Type) (f : A -> prog B) (fuel t : nat) (s : @sys W),
    exec client (bind p f) fuel t s =
    match exec client p fuel t s with
    | Done a s' => exec client (f a) fuel t s'
    | Blocked => Blocked
    | Panicked => Panicked
    | OutOfFuel => OutOfFuel
    end.
Proof.
  induction p as [A r | A | A X e k IH | A g k IH | A S T body IHbody st k IH];
    intros B f fuel t s; simpl.
  - reflexivity.
  - reflexivity.
  - destruct (handle client t true e s) as [[x s1]|]; [apply IH | reflexivity].
  - apply IH.
  - apply exec_loop_bind. intros x s1. apply IH.
Qed.

Lemma exec_loop_keeps_ch {R S T : Type}
      (turn : S -> @sys W -> outcome (S + T))
      (leave : T -> @sys W -> outcome R) :
  (forall st s r s', turn st s = Done r s' -> ch (hook s') = ch (hook s)) ->
  (forall x s r s', leave x s = Done r s' -> ch (hook s') = ch (hook s)) ->
  forall n st s r s',
    exec_loop turn leave n st s = Done r s' -> ch (hook s') = ch (hook s).
Proof.
  intros Hturn Hleave. induction n as [|n IH]; intros st s r s' Hrun;
    simpl in Hrun; [discriminate|].
  destruct (turn st s) as [[st1 | x] s1 | | |] eqn:Ht; try discriminate.
  - rewrite (IH _ _ _ _ Hrun). eapply Hturn; eassumption.
  - rewrite (Hleave _ _ _ _ Hrun). eapply Hturn; eassumption.
Qed.

(** A program that keeps the channel leaves [h.ch] as it was. *)
Lemma exec_keeps_ch {R : Type} (p : prog R) :
  forall (fuel t : nat) (s s' : @sys W) (r : R),
    keeps_ch p ->
    exec client p fuel t s = Done r s' ->
    ch (hook s') = ch (hook s).
Proof.
  induction p as [A r0 | A | A X e k IH | A g k IH | A S T body IHbody st k IH];
    intros fuel t s s' r Hp Hrun; simpl in *.
  - injection Hrun as _ <-. reflexivity.
  - discriminate.
  - destruct (handle client t true e s) as [[x s1]|] eqn:Hh; [|discriminate].
    assert (ch (hook s1) = ch (hook s)) as <-.
    { destruct e; simpl in Hh; try contradiction;
        repeat match type of Hh with
               | context [match mutex s with _ => _ end] =>
                 destruct (mutex s)
               | context [let '(_, _) := ?c in _] => destruct c
               end;
        try discriminate; injection Hh as <- <-; reflexivity. }
    destruct e; try contradiction; eapply IH; eauto.
  - rewrite (IH _ _ _ _ _ Hp Hrun). reflexivity.
  - destruct Hp as [Hbody Hk].
    eapply exec_loop_keeps_ch; [| |exact Hrun]; simpl; intros; eauto.
Qed.

(** The hook that [NewCloudWatchLogsHook] returns has a channel if and
    only if the options left it a positive [logFrequency]. *)
Lemma NewCloudWatchLogsHook_channel (region group stream : string)
      (options : list CloudWatchLogsHookOption) (fuel t : nat)
      (s0 s1 : @sys W) :
  exec client (NewCloudWatchLogsHook region group stream options) fuel t s0
  = Done None s1 ->
  let hk := apply_options options (new_hook group stream) in
  ch (hook s1) =
  if logFrequency hk >? 0 then Some (make_chan 10000) else ch hk.
Proof.
  intros Hrun hk. unfold NewCloudWatchLogsHook in Hrun.
  cbn -[bind apply_options] in Hrun.
  destruct (svc_LoadDefaultConfig client (cloud s0) _) as [e|];
    [discriminate|].
  fold hk in Hrun. rewrite exec_bind in Hrun.
  assert (exists s, (exec client
             (if logFrequency hk >? 0
              then NewHook (set_ch (Some (make_chan 10000)) hk) ;;
                   go go_putBatch ;; Ret tt
              else NewHook hk ;; Ret tt) fuel t s0 = Done tt s) /\
            ch (hook s) = if logFrequency hk >? 0
                          then Some (make_chan 10000) else ch hk)
    as (s & Hs & Hch).
  { destruct (logFrequency hk >? 0); simpl; eexists; split; reflexivity. }
  rewrite Hs in Hrun. rewrite exec_bind in Hrun.
  destruct (exec client createLogGroup fuel t s) as [[e|] s2| | |] eqn:Hg;
    try discriminate.
  rewrite exec_bind in Hrun.
  destruct (exec client createLogStream fuel t s2) as [[e|] s3| | |] eqn:Hst;
    try discriminate.
  injection Hrun as <-.
  rewrite (exec_keeps_ch _ _ _ _ _ _ createLogStream_keeps_ch Hst).
  rewrite (exec_keeps_ch _ _ _ _ _ _ createLogGroup_keeps_ch Hg).
  exact Hch.
Qed.

End Constructor.

(** ** Properties of single calls *)

Lemma apply_options_no_batch (options : list CloudWatchLogsHookOption) :
  Forall not_batch_option options ->
  forall h,
    logFrequency (apply_options options h) = logFrequency h /\
    ch (apply_options options h) = ch h.
Proof.
  induction 1 as [|opt options Hopt _ IH]; intros h; simpl; [auto|].
  destruct (IH (opt h)) as [-> ->].
  destruct Hopt as [[d ->] | [[id ->] | [tgs ->]]]; auto.
Qed.

Section CallProperties.

Context {W : Type} (client : Client W).

(** C2.  A hook built by [NewCloudWatchLogsHook] with no batch duration
    among its options has [logFrequency] zero and a nil channel; and
    whenever the channel is nil, a call of [Write] waits while the mutex is
    held by another goroutine, and with the mutex free returns after
    exactly one [PutLogEvents] call whose request holds exactly the one
    event built from the message, starts no goroutine, and leaves the
    channel nil and the mutex free for the next call. *)
Theorem Write_unbatched_uploads_once (region group stream : string)
        (options : list CloudWatchLogsHookOption) (fuel0 t0 : nat)
        (s0 s1 : @sys W) :
  Forall not_batch_option options ->
  exec client (NewCloudWatchLogsHook region group stream options) fuel0 t0 s0
  = Done None s1 ->
  logFrequency (apply_options options (new_hook group stream)) = 0 /\
  ch (hook s1) = None /\
  forall (s : @sys W) (msg : string) (fuel t : nat),
    ch (hook s) = None ->
    (forall t', mutex s = Some t' ->
                exec client (Write msg) fuel t s = Blocked) /\
    (mutex s = None ->
     exists r answer s',
       exec client (Write msg) fuel t s = Done r s' /\
       uploads s' =
       uploads s ++
       [(request (hook s)
                 [{| Message := msg;
                     Timestamp :=
                       Z.quot (int64_wrap (1 * clock s)) 1000000 |}],
         answer)] /\
       started s' = started s /\
       ch (hook s') = None /\
       mutex s' = None).
Proof.
  intros Hopts Hnew.
  destruct (apply_options_no_batch options Hopts (new_hook group stream))
    as [Hfreq Hch].
  simpl in Hfreq, Hch. split; [assumption|]. split.
  - rewrite (NewCloudWatchLogsHook_channel client _ _ _ _ _ _ _ _ Hnew).
    rewrite Hfreq. simpl. assumption.
  - intros s msg fuel t Hnil. split.
    + intros t' Hheld. simpl. rewrite Hnil. simpl. rewrite Hheld.
      reflexivity.
    + intros Hfree.
      pose proof (Write_direct_exec client msg fuel t s Hnil Hfree) as Hrun.
      simpl in Hrun.
      destruct (svc_PutLogEvents client (cloud s) _) as [w [result | e]]
        eqn:Hsvc; simpl in Hrun;
        eexists _, _, _; (split; [exact Hrun|]); simpl; auto.
Qed.

(** C6.  When the channel is nil and [PutLogEvents] fails, [Write] returns
    that very error together with a byte count of zero, and the stored
    sequence token is what it was. *)
Theorem Write_unbatched_failure (msg : string) (fuel t : nat) (s : @sys W)
        (w' : W) (e : error) :
  ch (hook s) = None ->
  mutex s = None ->
  svc_PutLogEvents client (cloud s)
    (request (hook s)
             [{| Message := msg;
                 Timestamp := Z.quot (int64_wrap (1 * clock s)) 1000000 |}])
  = (w', inr e) ->
  exists s',
    exec client (Write msg) fuel t s = Done (0, Some e) s' /\
    nextSequenceToken (hook s') = nextSequenceToken (hook s) /\
    hook s' = hook s.
Proof.
  intros Hnil Hfree Hsvc.
  pose proof (Write_direct_exec client msg fuel t s Hnil Hfree) as Hrun.
  simpl in Hrun. rewrite Hsvc in Hrun. simpl in Hrun.
  eexists. split; [exact Hrun|]. simpl. auto.
Qed.

(** C9.  With a channel that has room, [Write] returns with the event
    appended to the channel whether or not an error was cached: with a
    cached error it returns zero and an error of the same text, without
    one the length of the message and no error.  With a full channel
    [Write] does not get as far as looking at the cached error. *)
Theorem Write_batched_queues_before_error (msg : string) (fuel t : nat)
        (s : @sys W) (c : channel) :
  ch (hook s) = Some c ->
  (slice_len (buffer c) < capacity c ->
   exists r s',
     exec client (Write msg) fuel t s = Done r s' /\
     ch (hook s') =
     Some {| capacity := capacity c;
             buffer :=
               buffer c ++
               [{| Message := msg;
                   Timestamp :=
                     Z.quot (int64_wrap (1 * clock s)) 1000000 |}] |} /\
     r = match err (hook s) with
         | Some e => (0, Some (FmtError (Error e)))
         | None => (len msg, None)
         end) /\
  (capacity c <= slice_len (buffer c) ->
   exec client (Write msg) fuel t s = Blocked).
Proof.
  intros Hch. split.
  - intros Hroom.
    pose proof (Write_batched_exec client msg fuel t s c Hch Hroom) as Hrun.
    simpl in Hrun.
    destruct (err (hook s)) as [e|]; eexists _, _;
      (split; [exact Hrun|]); simpl; auto.
  - intros Hfull. simpl. rewrite Hch. simpl. rewrite Hch.
    destruct (Z.ltb_spec (slice_len (buffer c)) (capacity c)); [lia|].
    reflexivity.
Qed.

(** C10.  With the mutex free, [sendBatch] on an empty batch returns with
    the whole state as it was: nothing uploaded, token and cached error
    untouched.  On a batch whose upload fails, it returns with the hook
    changed in the cached error only, the stored token as it was. *)
Theorem sendBatch_frame (fuel t : nat) (s : @sys W) :
  mutex s = None ->
  exec client (sendBatch []) fuel t s = Done tt s /\
  forall (batch : list InputLogEvent) (w' : W) (e : error),
    batch <> [] ->
    svc_PutLogEvents client (cloud s) (request (hook s) batch)
    = (w', inr e) ->
    exists s',
      exec client (sendBatch batch) fuel t s = Done tt s' /\
      nextSequenceToken (hook s') = nextSequenceToken (hook s) /\
      hook s' = set_err (Some e) (hook s).
Proof.
  intros Hfree. split; [apply sendBatch_empty_exec; assumption|].
  intros batch w' e Hne Hsvc.
  pose proof (sendBatch_exec client batch fuel t s Hne Hfree) as Hrun.
  simpl in Hrun. rewrite Hsvc in Hrun. simpl in Hrun.
  eexists. split; [exact Hrun|]. simpl. auto.
Qed.


(** C8, amended.  [Levels] lists [FatalLevel], yet for an entry at
    [FatalLevel] [Fire] writes nothing: it returns leaving the whole state
    as it was, with no error when the entry formats to a line, and with
    the "Unable to parse entry" error when formatting the entry fails.  At
    every other level that [Levels] lists, [Fire] hands the line to
    [Write] and returns the error of [Write]. *)
Theorem Fire_drops_fatal_entries (entry : Entry) :
  EntryLevel entry = FatalLevel ->
  In FatalLevel Levels /\
  (forall (fuel t : nat) (s : @sys W),
      exec client (Fire entry) fuel t s =
      Done match EntryString entry with
           | inl _ => None
           | inr err => Some (fmt_Errorf "Unable to parse entry: " err)
           end s) /\
  (forall (level : Level) (line : string),
      In level Levels ->
      level <> FatalLevel ->
      Fire {| EntryLevel := level; EntryString := inl line |} =
      (res <~ Write line ;; let '(_, err) := res in Ret err)).
Proof.
  intros Hlevel. split; [simpl; auto|]. split.
  - intros fuel t s. unfold Fire. rewrite Hlevel.
    destruct (EntryString entry); reflexivity.
  - intros level line Hin Hne. simpl in Hin.
    destruct Hin as [<- | [<- | [<- | [<- | [<- | [<- | []]]]]]];
      try reflexivity; congruence.
Qed.

End CallProperties.

(** ** Properties of the interleaved system *)

Section SystemProperties.

Context {W : Type} (client : Client W).

(** C4.  In every state the system reaches, under any schedule: a
    goroutine about to call [PutLogEvents] sends the stored
    [nextSequenceToken] as the request's [SequenceToken]; every upload made
    so far carried the [NextSequenceToken] returned by the last successful
    upload before it (the initial token when there was none); and once the
    mutex is released the stored token is the one returned by the last
    successful upload. *)
Theorem uploads_threaded_by_token (h : CloudWatchLogsHook) (w : W)
        (schedule : list action) (s : @sys W) :
  run client (initial h w) schedule = Some s ->
  (forall t input k,
      threads s !! t = Some (Do (PutLogEvents input) k) ->
      SequenceToken input = nextSequenceToken (hook s)) /\
  threaded (nextSequenceToken h) (uploads s) /\
  (mutex s = None ->
   nextSequenceToken (hook s) =
   token_after (nextSequenceToken h) (uploads s)).
Proof.
  intros Hrun.
  pose proof (Inv_run client _ _ _ _ (Inv_initial h w) Hrun) as HInv.
  split.
  - intros t input k Hlook.
    apply (Inv_uploading _ _ _ _ _ HInv Hlook).
  - destruct HInv as (Hthr & Hfree & _). auto.
Qed.

(** C7.  In every state the system reaches, under any schedule, a
    goroutine about to call [PutLogEvents], from [Write] or from
    [sendBatch], holds the mutex of the hook; so no two goroutines are at
    an upload at once. *)
Theorem uploads_hold_mutex (h : CloudWatchLogsHook) (w : W)
        (schedule : list action) (s : @sys W) :
  run client (initial h w) schedule = Some s ->
  (forall t, uploading s t -> mutex s = Some t) /\
  (forall t1 t2, uploading s t1 -> uploading s t2 -> t1 = t2).
Proof.
  intros Hrun.
  pose proof (Inv_run client _ _ _ _ (Inv_initial h w) Hrun) as HInv.
  assert (forall t, uploading s t -> mutex s = Some t) as Hheld.
  { intros t (input & k & Hlook).
    apply (Inv_uploading _ _ _ _ _ HInv Hlook). }
  split; [assumption|].
  intros t1 t2 H1 H2. apply Hheld in H1. apply Hheld in H2. congruence.
Qed.

End SystemProperties.

(** ** The properties on the sample data *)

Lemma putBatch_flushes_early_witness :
  putBatch_trace ([], 0) [case_ch small_event]
  = Some ([], ([small_event], 28)) /\
  feed (putBatch_iteration ([small_event], 28)) (case_ch big_event)
  = Some ([go_sendBatch [small_event]], inl ([big_event], event_size big_event)).
Proof.
  split; [reflexivity|].
  apply (putBatch_flushes_early [case_ch small_event] [] [small_event] 28
                                big_event).
  - reflexivity.
  - right. rewrite event_size_big_event. reflexivity.
Defined.

Lemma Write_unbatched_uploads_once_witness :
  exec scripted
       (NewCloudWatchLogsHook "" "grp" "str" [WithGroupRetentionDays 7])
       1 0 (initial (new_hook "" "") [])
  = Done None (initial (WithGroupRetentionDays 7 example_hook) []) /\
  exists r answer s',
    exec scripted (Write "hello") 0 0
         (initial (WithGroupRetentionDays 7 example_hook) [])
    = Done r s' /\
    uploads s' =
    [(request (WithGroupRetentionDays 7 example_hook)
              [{| Message := "hello"; Timestamp := 0 |}], answer)] /\
    started s' = [] /\
    ch (hook s') = None /\
    mutex s' = None.
Proof.
  split; [reflexivity|].
  assert (Forall not_batch_option [WithGroupRetentionDays 7]) as Hopts.
  { constructor; [left; exists 7; reflexivity | constructor]. }
  destruct (Write_unbatched_uploads_once
              scripted "" "grp" "str" [WithGroupRetentionDays 7] 1 0
              (initial (new_hook "" "") [])
              (initial (WithGroupRetentionDays 7 example_hook) [])
              Hopts eq_refl) as (_ & _ & Hwrite).
  apply (Hwrite (initial (WithGroupRetentionDays 7 example_hook) [])
                "hello" 0%nat 0%nat); reflexivity.
Defined.

Lemma Write_unbatched_failure_witness :
  exists s',
    exec scripted (Write "hello") 0 0 (initial example_hook [inr boom])
    = Done (0, Some boom) s' /\
    nextSequenceToken (hook s') = None /\
    hook s' = example_hook.
Proof.
  apply (Write_unbatched_failure scripted "hello" 0 0
                                 (initial example_hook [inr boom]) [] boom);
    reflexivity.
Defined.

Lemma Write_batched_queues_before_error_witness :
  exists r s',
    exec scripted (Write "hello") 0 1
         (initial (set_err (Some boom) batched_hook) [])
    = Done r s' /\
    ch (hook s') =
    Some {| capacity := 10000;
            buffer := [{| Message := "hello"; Timestamp := 0 |}] |} /\
    r = (0, Some (FmtError "InvalidSequenceTokenException")).
Proof.
  apply (Write_batched_queues_before_error
           scripted "hello" 0 1
           (initial (set_err (Some boom) batched_hook) [])
           (make_chan 10000)).
  - reflexivity.
  - reflexivity.
Defined.

Lemma sendBatch_frame_witness :
  exec scripted (sendBatch []) 0 1 (initial example_hook [inr boom])
  = Done tt (initial example_hook [inr boom]) /\
  exists s',
    exec scripted (sendBatch [small_event]) 0 1
         (initial example_hook [inr boom])
    = Done tt s' /\
    nextSequenceToken (hook s') = None /\
    hook s' = set_err (Some boom) example_hook.
Proof.
  destruct (sendBatch_frame scripted 0 1 (initial example_hook [inr boom])
                            eq_refl) as [Hempty Hfail].
  split; [exact Hempty|].
  apply (Hfail [small_event] [] boom); [discriminate | reflexivity].
Defined.



Lemma Fire_drops_fatal_entries_witness :
  In FatalLevel Levels /\
  forall (fuel t : nat) (s : sys),
    exec scripted (Fire fatal_entry) fuel t s = Done None s.
Proof.
  destruct (Fire_drops_fatal_entries scripted fatal_entry eq_refl)
    as (Hlisted & Hdropped & _).
  split; [exact Hlisted | exact Hdropped].
Defined.

(** C8 as stated fails: for an entry at [FatalLevel] that the formatter
    cannot format, [Fire] returns an error, not nil. *)
Lemma Fire_unformattable_fatal_entry_returns_error :
  EntryLevel unformattable_fatal_entry = FatalLevel /\
  exec scripted (Fire unformattable_fatal_entry) 0 0 (initial example_hook [])
  = Done (Some (FmtError "Unable to parse entry: json: unsupported type"))
         (initial example_hook []) /\
  Some (FmtError "Unable to parse entry: json: unsupported type")
  <> @None error.
Proof.
  split; [reflexivity|]. split; [reflexivity | discriminate].
Qed.

Lemma uploads_threaded_by_token_witness :
  exists s,
    run scripted
        (initial example_hook
                 [inl {| NextSequenceToken := Some "t1" |};
                  inl {| NextSequenceToken := Some "t2" |}])
        two_writes = Some s /\
    map (fun u => SequenceToken (fst u)) (uploads s) = [None; Some "t1"] /\
    nextSequenceToken (hook s) = Some "t2" /\
    (forall t input k,
        threads s !! t = Some (Do (PutLogEvents input) k) ->
        SequenceToken input = nextSequenceToken (hook s)) /\
    threaded None (uploads s) /\
    (mutex s = None ->
     nextSequenceToken (hook s) = token_after None (uploads s)).
Proof.
  eexists. split; [vm_compute; reflexivity|]. split; [reflexivity|].
  split; [reflexivity|].
  apply (uploads_threaded_by_token
           scripted example_hook
           [inl {| NextSequenceToken := Some "t1" |};
            inl {| NextSequenceToken := Some "t2" |}]
           two_writes).
  vm_compute. reflexivity.
Defined.

Lemma uploads_hold_mutex_witness :
  exists s,
    run scripted (initial example_hook []) two_writers_contend = Some s /\
    uploading s 0 /\
    (forall t, uploading s t -> mutex s = Some t) /\
    (forall t1 t2, uploading s t1 -> uploading s t2 -> t1 = t2).
Proof.
  eexists. split; [vm_compute; reflexivity|]. split.
  - eexists _, _. reflexivity.
  - apply (uploads_hold_mutex scripted example_hook [] two_writers_contend).
    vm_compute. reflexivity.
Defined.

(** * Further properties *)

(** ** The batching loop keeps every event, in order *)

Lemma batches_of_app (gs1 gs2 : list goroutine) :
  batches_of (gs1 ++ gs2) = batches_of gs1 ++ batches_of gs2.
Proof.
  induction gs1 as [|[|batch] gs1 IH]; simpl; [reflexivity | assumption|].
  now rewrite IH.
Qed.

Lemma putBatch_trace_app (inputs1 inputs2 : list select_case) :
  forall st,
    putBatch_trace st (inputs1 ++ inputs2) =
    match putBatch_trace st inputs1 with
    | Some (gs1, st1) =>
      match putBatch_trace st1 inputs2 with
      | Some (gs2, st2) => Some (gs1 ++ gs2, st2)
      | None => None
      end
    | None => None
    end.
Proof.
  induction inputs1 as [|x rest IH]; intros st; simpl.
  - destruct (putBatch_trace st inputs2) as [[gs2 st2]|]; reflexivity.
  - destruct (feed (putBatch_iteration st) x) as [[gs [st'|[]]]|];
      [|reflexivity].
    rewrite IH.
    destruct (putBatch_trace st' rest) as [[gs1 st1]|]; [|reflexivity].
    destruct (putBatch_trace st1 inputs2) as [[gs2 st2]|]; [|reflexivity].
    now rewrite app_assoc.
Qed.

(** From any loop state: the batches handed over, followed by the batch
    still pending, are the batch pending at the start followed by the
    events received. *)
Lemma putBatch_trace_events (inputs : list select_case) :
  forall batch0 size0 gs batch size,
    putBatch_trace (batch0, size0) inputs = Some (gs, (batch, size)) ->
    concat (batches_of gs) ++ batch = batch0 ++ received inputs.
Proof.
  induction inputs as [|x rest IH]; intros batch0 size0 gs batch size Htrace;
    cbn [putBatch_trace] in Htrace.
  - injection Htrace as <- <- <-. simpl. now rewrite app_nil_r.
  - destruct x as [p|].
    + rewrite feed_iteration_ch in Htrace.
      destruct ((size0 + event_size p >? 1048576)
                || (slice_len batch0 =? 10000)).
      * destruct (putBatch_trace ([p], event_size p) rest)
          as [[gs' [b' s']]|] eqn:Hrest; [|discriminate].
        injection Htrace as <- <- <-. simpl.
        rewrite <- app_assoc. now rewrite (IH _ _ _ _ _ Hrest).
      * destruct (putBatch_trace (batch0 ++ [p], size0 + event_size p) rest)
          as [[gs' [b' s']]|] eqn:Hrest; [|discriminate].
        injection Htrace as <- <- <-. simpl.
        rewrite (IH _ _ _ _ _ Hrest). now rewrite <- app_assoc.
    + rewrite feed_iteration_ticker in Htrace.
      destruct (putBatch_trace ([], 0) rest)
        as [[gs' [b' s']]|] eqn:Hrest; [|discriminate].
      injection Htrace as <- <- <-. simpl.
      rewrite <- app_assoc. rewrite (IH _ _ _ _ _ Hrest). reflexivity.
Qed.

(** X1.  Batching neither loses, nor repeats, nor reorders events: over
    every sequence of events and ticks, the batches [putBatch] has handed
    to [sendBatch], one after the other, followed by the batch it still
    holds, are exactly the events it received, in the order received. *)
Theorem putBatch_keeps_events_in_order (inputs : list select_case) :
  exists gs batch size,
    putBatch_trace ([], 0) inputs = Some (gs, (batch, size)) /\
    concat (batches_of gs) ++ batch = received inputs.
Proof.
  destruct (putBatch_trace_inv inputs ([], 0) loop_inv_start)
    as (gs & [batch size] & Htrace & _ & _).
  exists gs, batch, size. split; [assumption|].
  apply (putBatch_trace_events inputs [] 0 gs batch size Htrace).
Qed.

(** X2.  A tick leaves nothing pending: after any sequence of events and
    ticks that ends with a tick, the loop holds an empty batch, and the
    batches handed to [sendBatch] are together all the events received. *)
Theorem putBatch_tick_hands_over_everything (inputs : list select_case) :
  exists gs,
    putBatch_trace ([], 0) (inputs ++ [case_ticker]) = Some (gs, ([], 0)) /\
    concat (batches_of gs) = received inputs.
Proof.
  destruct (putBatch_trace_inv inputs ([], 0) loop_inv_start)
    as (gs & [batch size] & Htrace & _ & _).
  exists (gs ++ [go_sendBatch batch]). split.
  - rewrite putBatch_trace_app, Htrace. reflexivity.
  - rewrite batches_of_app, concat_app. simpl. rewrite app_nil_r.
    apply (putBatch_trace_events inputs [] 0 gs batch size Htrace).
Qed.

(** X3.  The loop flushes early only when it must: whatever it has
    received so far, if the next event keeps the batch within 10,000
    events and 1,048,576 bytes, the turn that receives it starts no
    goroutine and appends the event to the batch. *)
Theorem putBatch_appends_when_event_fits (inputs : list select_case)
        (gs : list goroutine) (batch : list InputLogEvent) (size : Z)
        (p : InputLogEvent) :
  putBatch_trace ([], 0) inputs = Some (gs, (batch, size)) ->
  slice_len batch + 1 <= 10000 ->
  batch_size batch + event_size p <= 1048576 ->
  feed (putBatch_iteration (batch, size)) (case_ch p) =
  Some ([], inl (batch ++ [p], batch_size (batch ++ [p]))).
Proof.
  intros Htrace Hcount Hbytes.
  destruct (putBatch_trace_inv inputs ([], 0) loop_inv_start)
    as (gs' & st' & Htrace' & Hinv & _).
  rewrite Htrace in Htrace'. injection Htrace' as <- <-.
  destruct Hinv as (Hsize & _ & _).
  rewrite feed_iteration_ch.
  assert ((size + event_size p >? 1048576) || (slice_len batch =? 10000)
          = false) as ->.
  { apply orb_false_iff. split.
    - rewrite Z.gtb_ltb. apply Z.ltb_ge. lia.
    - apply Z.eqb_neq. lia. }
  rewrite batch_size_app. simpl. rewrite Hsize, Z.add_0_r. reflexivity.
Qed.

Lemma putBatch_appends_when_event_fits_witness :
  feed (putBatch_iteration ([small_event], 28)) (case_ch small_event) =
  Some ([], inl ([small_event; small_event], 56)).
Proof.
  apply (putBatch_appends_when_event_fits
           [case_ch small_event] [] [small_event] 28 small_event);
    [reflexivity | vm_compute; discriminate | vm_compute; discriminate].
Defined.

(** ** Calls one after the other *)

Section CallSequences.

Context {W : Type} (client : Client W).

(** X4.  [sendBatch] called on any batches one after the other, the mutex
    free at the start: every call returns; each batch that is not empty is
    uploaded once, in order, and empty ones not at all; each upload
    carries the token left by the uploads before it, and the stored token
    ends as the one left by the last of them; the cached error ends as the
    error of the last failed upload, whatever succeeded after it, and as
    it was when none failed; the mutex is free again. *)
Theorem sendBatch_sequence (batches : list (list InputLogEvent))
        (fuel t : nat) :
  forall s : @sys W,
    mutex s = None ->
    exists s' new,
      exec client (send_all batches) fuel t s = Done tt s' /\
      uploads s' = uploads s ++ new /\
      map (fun u => LogEvents (fst u)) new = nonempty_batches batches /\
      threaded (nextSequenceToken (hook s)) new /\
      nextSequenceToken (hook s')
      = token_after (nextSequenceToken (hook s)) new /\
      err (hook s') = last_error (err (hook s)) new /\
      mutex s' = None.
Proof.
  induction batches as [|batch rest IH]; intros s Hfree.
  - exists s, []. simpl. rewrite app_nil_r. auto 10.
  - cbn [send_all]. rewrite exec_bind.
    destruct batch as [|p batch].
    + rewrite sendBatch_empty_exec by assumption.
      destruct (IH s Hfree) as (s' & new & Hrun & Hrest).
      exists s', new. split; [exact Hrun | exact Hrest].
    + rewrite sendBatch_exec by (assumption || discriminate).
      cbv zeta.
      destruct (svc_PutLogEvents client (cloud s)
                                 (request (hook s) (p :: batch)))
        as [w answer] eqn:Hsvc.
      cbn [fst snd].
      match goal with
      | |- context [exec client (send_all rest) fuel t ?s1] =>
        destruct (IH s1 Hfree)
          as (s' & new & Hrun & Hup & Hev & Hthr & Htok & Herr & Hm)
      end.
      exists s', ((request (hook s) (p :: batch), answer) :: new).
      split; [exact Hrun|].
      simpl in Hup. rewrite <- app_assoc in Hup. simpl in Hup.
      split; [exact Hup|].
      split; [unfold nonempty_batches in *; simpl; now rewrite Hev|].
      destruct answer as [result | e]; simpl in *; auto 10.
Qed.

(** X5.  A cached error is reported once: with a channel that has room
    for two events and an error cached, a first [Write] returns zero and
    an error of the cached text, a second [Write] returns the length of
    its message and no error, and both events are in the channel, in the
    order written. *)
Theorem Write_reports_cached_error_once (msg1 msg2 : string)
        (fuel t1 t2 : nat) (s : @sys W) (c : channel) (e : error) :
  ch (hook s) = Some c ->
  slice_len (buffer c) + 1 < capacity c ->
  err (hook s) = Some e ->
  exists s1 s2,
    exec client (Write msg1) fuel t1 s
    = Done (0, Some (FmtError (Error e))) s1 /\
    exec client (Write msg2) fuel t2 s1 = Done (len msg2, None) s2 /\
    ch (hook s2) =
    Some {| capacity := capacity c;
            buffer :=
              buffer c ++
              [{| Message := msg1;
                  Timestamp := Z.quot (int64_wrap (1 * clock s)) 1000000 |};
               {| Message := msg2;
                  Timestamp := Z.quot (int64_wrap (1 * clock s)) 1000000 |}]
         |}.
Proof.
  intros Hch Hroom Herr.
  assert (slice_len (buffer c) < capacity c) as Hroom1 by lia.
  pose proof (Write_batched_exec client msg1 fuel t1 s c Hch Hroom1) as H1.
  cbv zeta in H1. rewrite Herr in H1.
  set (ev1 := {| Message := msg1;
                 Timestamp := Z.quot (int64_wrap (1 * clock s)) 1000000 |})
    in *.
  set (c1 := {| capacity := capacity c; buffer := buffer c ++ [ev1] |})
    in *.
  assert (slice_len (buffer c1) < capacity c1) as Hroom2.
  { unfold c1; simpl. rewrite slice_len_app. unfold slice_len at 2.
    simpl. lia. }
  eexists.
  match type of H1 with
  | _ = Done _ ?s1 =>
    pose proof (Write_batched_exec client msg2 fuel t2 s1 c1 eq_refl Hroom2)
      as H2
  end.
  cbv zeta in H2. simpl in H2.
  eexists. split; [exact H1|]. split; [exact H2|].
  simpl. rewrite <- app_assoc. reflexivity.
Qed.

Lemma timestamp_in_range (now : Z) :
  - 2 ^ 63 <= now < 2 ^ 63 ->
  Z.quot (int64_wrap (1 * now)) 1000000 = Z.quot now 1000000.
Proof.
  intros Hrange. unfold int64_wrap. rewrite Z.mul_1_l.
  rewrite Z.mod_small by lia. f_equal. lia.
Qed.

(** X6.  The event [Write] builds carries the message and the clock in
    whole milliseconds: for a clock reading [now] of nanoseconds between
    zero and 2^63, its timestamp [ts] is such that
    [1000000 * ts <= now < 1000000 * ts + 1000000].  That event is what
    an unbatched [Write] uploads and what a batched [Write] queues. *)
Theorem Write_timestamp_in_milliseconds (msg : string) (fuel t : nat)
        (s : @sys W) :
  0 <= clock s < 2 ^ 63 ->
  exists ev,
    Message ev = msg /\
    1000000 * Timestamp ev <= clock s < 1000000 * Timestamp ev + 1000000 /\
    (ch (hook s) = None ->
     mutex s = None ->
     exists r answer s',
       exec client (Write msg) fuel t s = Done r s' /\
       uploads s' = uploads s ++ [(request (hook s) [ev], answer)]) /\
    (forall c,
        ch (hook s) = Some c ->
        slice_len (buffer c) < capacity c ->
        exists r s',
          exec client (Write msg) fuel t s = Done r s' /\
          ch (hook s') = Some {| capacity := capacity c;
                                 buffer := buffer c ++ [ev] |}).
Proof.
  intros Hclock.
  exists {| Message := msg;
            Timestamp := Z.quot (int64_wrap (1 * clock s)) 1000000 |}.
  split; [reflexivity|]. split.
  - simpl. rewrite timestamp_in_range by lia.
    rewrite Z.quot_div_nonneg by lia.
    pose proof (Z.div_mod (clock s) 1000000 ltac:(lia)) as Hdm.
    pose proof (Z.mod_pos_bound (clock s) 1000000 ltac:(lia)) as Hmod.
    lia.
  - split.
    + intros Hnil Hfree.
      pose proof (Write_direct_exec client msg fuel t s Hnil Hfree) as Hrun.
      cbv zeta in Hrun.
      destruct (svc_PutLogEvents client (cloud s) _) as [w [result | e]];
        simpl in Hrun; eexists _, _, _; (split; [exact Hrun|]);
        reflexivity.
    + intros c Hch Hroom.
      pose proof (Write_batched_exec client msg fuel t s c Hch Hroom)
        as Hrun.
      cbv zeta in Hrun.
      destruct (err (hook s)); eexists _, _; (split; [exact Hrun|]);
        reflexivity.
Qed.

(** X7.  At a level other than [FatalLevel] that [Levels] lists, for an
    entry that formats to a line, [Fire] does what [Write] does on that
    line: it leaves the state [Write] leaves and returns the error [Write]
    returns, the byte count being dropped; it waits where [Write] waits. *)
Theorem Fire_runs_Write_on_the_line (entry : Entry) (line : string)
        (fuel t : nat) (s : @sys W) :
  EntryString entry = inl line ->
  In (EntryLevel entry) Levels ->
  EntryLevel entry <> FatalLevel ->
  exec client (Fire entry) fuel t s =
  match exec client (Write line) fuel t s with
  | Done (_, err) s' => Done err s'
  | Blocked => Blocked
  | Panicked => Panicked
  | OutOfFuel => OutOfFuel
  end.
Proof.
  intros Hline Hin Hne. unfold Fire. rewrite Hline.
  assert ((res <~ Write line ;; let '(_, err) := res in Ret err)
          = match EntryLevel entry with
            | PanicLevel | ErrorLevel | WarnLevel | InfoLevel | DebugLevel =>
              res <~ Write line ;; let '(_, err) := res in Ret err
            | _ => Ret None
            end) as <-.
  { destruct (EntryLevel entry); try reflexivity.
    - congruence.
    - simpl in Hin. intuition discriminate. }
  rewrite exec_bind.
  destruct (exec client (Write line) fuel t s) as [[n err] s'| | |];
    reflexivity.
Qed.

End CallSequences.

(** ** Looking up and creating the group and the stream *)

Lemma client_only_bind {A : Type} (p : prog A) :
  forall (B : Type) (f : A -> prog B) (wt : bool),
    client_only wt p -> (forall a, client_only wt (f a)) ->
    client_only wt (bind p f).
Proof.
  induction p as [A r | A | A X e k IH | A g k IH | A S T body IHbody st k IH];
    intros B f wt Hp Hf; simpl in *.
  - apply Hf.
  - exact I.
  - destruct e; try contradiction; try (intros x; apply IH; auto).
    destruct Hp as [Hwt Hp]. split; [assumption|].
    intros x. apply IH; auto.
  - contradiction.
  - destruct Hp as [Hbody Hk]. split; [assumption|].
    intros x. apply IH; auto.
Qed.

Lemma findLogGroup_client_only : client_only false findLogGroup.
Proof.
  unfold findLogGroup; simpl. split; [|intros; exact I].
  intros nextToken g [result | e]; simpl; [|exact I].
  destruct (find _ _); simpl; [exact I|].
  destruct (groups_out_NextToken result); exact I.
Qed.

Lemma findLogStream_client_only : client_only true findLogStream.
Proof.
  unfold findLogStream; simpl. split; [|intros; exact I].
  intros nextToken g s [result | e]; simpl; [|exact I].
  destruct (find _ _); simpl; [split; [reflexivity | intros; exact I]|].
  destruct (streams_out_NextToken result); exact I.
Qed.

Lemma client_only_weaken {R : Type} (p : prog R) :
  client_only false p -> client_only true p.
Proof.
  induction p as [A r | A | A X e k IH | A g k IH | A S T body IHbody st k IH];
    simpl; auto.
  - destruct e; try contradiction; auto.
    intros [Hwt _]. discriminate.
  - intros [Hbody Hk]. split; auto.
Qed.

Lemma createLogGroup_client_only : client_only false createLogGroup.
Proof.
  unfold createLogGroup.
  apply client_only_bind; [apply findLogGroup_client_only|].
  intros [[grp|] [e|]]; try exact I.
  hnf. intros g. hnf. intros tg. hnf. intros k. hnf.
  intros [e|]; exact I.
Qed.

Lemma createLogStream_client_only : client_only true createLogStream.
Proof.
  unfold createLogStream.
  apply client_only_bind; [apply findLogStream_client_only|].
  intros [[str|] [e|]]; try exact I.
  hnf. intros g. hnf. intros s. hnf. intros [e|]; [exact I|].
  apply client_only_bind; [apply findLogStream_client_only|].
  intros [str [e|]]; exact I.
Qed.

Section Lookup.

Context {W : Type} (client : Client W).

Lemma client_frame_refl (wt : bool) (s : @sys W) : client_frame wt s s.
Proof.
  split; [|reflexivity]. unfold same_but_cloud_and_token.
  destruct s as [[g sn tok rd kms tg lf c e] m tk cl w ups st ths].
  simpl. auto 10.
Qed.

Lemma client_frame_trans (wt : bool) (s1 s2 s3 : @sys W) :
  client_frame wt s1 s2 -> client_frame wt s2 s3 -> client_frame wt s1 s3.
Proof.
  intros [(Hh1 & Hm1 & Ht1 & Hc1 & Hu1 & Hs1 & Hth1) Hw1]
         [(Hh2 & Hm2 & Ht2 & Hc2 & Hu2 & Hs2 & Hth2) Hw2].
  split.
  - unfold same_but_cloud_and_token.
    repeat split; try congruence.
    rewrite Hh2 at 1. rewrite Hh1. reflexivity.
  - intros Hwt. rewrite (Hw2 Hwt). auto.
Qed.

Lemma exec_loop_frame {R S T : Type} (wt : bool)
      (turn : S -> @sys W -> outcome (S + T))
      (leave : T -> @sys W -> outcome R) :
  (forall st s r s', turn st s = Done r s' -> client_frame wt s s') ->
  (forall x s r s', leave x s = Done r s' -> client_frame wt s s') ->
  forall n st s r s',
    exec_loop turn leave n st s = Done r s' -> client_frame wt s s'.
Proof.
  intros Hturn Hleave. induction n as [|n IH]; intros st s r s' Hrun;
    simpl in Hrun; [discriminate|].
  destruct (turn st s) as [[st1 | x] s1 | | |] eqn:Ht; try discriminate.
  - eapply client_frame_trans; [eapply Hturn; eassumption|].
    eapply IH; eassumption.
  - eapply client_frame_trans; [eapply Hturn; eassumption|].
    eapply Hleave; eassumption.
Qed.

(** A program that only calls the client changes at most the state of the
    service and, when it may, the stored token. *)
Lemma exec_client_only {R : Type} (p : prog R) :
  forall (wt : bool) (fuel t : nat) (s s' : @sys W) (r : R),
    client_only wt p ->
    exec client p fuel t s = Done r s' ->
    client_frame wt s s'.
Proof.
  induction p as [A r0 | A | A X e k IH | A g k IH | A S T body IHbody st k IH];
    intros wt fuel t s s' r Hp Hrun; simpl in *.
  - injection Hrun as _ <-. apply client_frame_refl.
  - discriminate.
  - destruct (handle client t true e s) as [[x s1]|] eqn:Hh; [|discriminate].
    assert (client_frame wt s s1) as Hstep.
    { destruct e; simpl in Hh; try contradiction;
        repeat match type of Hh with
               | context [let '(_, _) := ?c in _] => destruct c
               end;
        injection Hh as <- <-;
        try apply client_frame_refl;
        try (destruct s as [[g sn tok rd kms tg lf c e] m tk cl w0 ups st ths];
             split; [unfold same_but_cloud_and_token; simpl; auto 10
                    | simpl; reflexivity]).
      destruct Hp as [-> _].
      destruct s as [[g sn tok rd kms tg lf c e] m tk cl w0 ups st ths].
      split; [unfold same_but_cloud_and_token; simpl; auto 10
             | discriminate]. }
    eapply client_frame_trans; [exact Hstep|].
    destruct e; try contradiction;
      (eapply (IH x); [first [apply Hp | apply (proj2 Hp)] | exact Hrun]).
  - contradiction.
  - destruct Hp as [Hbody Hk].
    eapply exec_loop_frame; [| |exact Hrun]; simpl; intros; eauto.
Qed.

(** The result of a loop that leaves by returning was returned by one of
    its turns. *)
Lemma exec_loop_result {R S : Type}
      (turn : S -> @sys W -> outcome (S + R)) (P : R -> @sys W -> Prop) :
  (forall st s r s', turn st s = Done (inr r) s' -> P r s') ->
  forall n st s r s',
    exec_loop turn (fun x s => Done x s) n st s = Done r s' -> P r s'.
Proof.
  intros Hturn. induction n as [|n IH]; intros st s r s' Hrun;
    simpl in Hrun; [discriminate|].
  destruct (turn st s) as [[st1 | x] s1 | | |] eqn:Ht; try discriminate.
  - eapply IH; eassumption.
  - injection Hrun as <- <-. eapply Hturn; eassumption.
Qed.

(** X8.  [findLogGroup] changes nothing but the state of the service, and
    a group it returns comes without error and has exactly the name of the
    hook's group: a group that only shares the prefix is not taken. *)
Theorem findLogGroup_finds_exact_name (fuel t : nat) (s s' : @sys W)
        (res : option LogGroup) (e : option error) :
  exec client findLogGroup fuel t s = Done (res, e) s' ->
  hook s' = hook s /\
  mutex s' = mutex s /\
  uploads s' = uploads s /\
  started s' = started s /\
  threads s' = threads s /\
  forall grp,
    res = Some grp ->
    e = None /\ aws_ToString (group_LogGroupName grp) = group (hook s).
Proof.
  intros Hrun.
  destruct (exec_client_only findLogGroup false fuel t s s' (res, e)
                             findLogGroup_client_only Hrun)
    as [(_ & Hm & _ & _ & Hu & Hst & Hth) Hhook].
  specialize (Hhook eq_refl).
  repeat (split; [assumption|]).
  intros grp ->.
  unfold findLogGroup in Hrun. cbn [exec] in Hrun.
  rewrite <- Hhook.
  refine (exec_loop_result
            _ (fun r s1 => forall grp e, r = (Some grp, e) ->
                 e = None /\ aws_ToString (group_LogGroupName grp)
                             = group (hook s1))
            _ _ _ _ _ _ Hrun grp e eq_refl).
  clear. intros nextToken s0 r s1 Hturn grp e ->. simpl in Hturn.
  destruct (svc_DescribeLogGroups client (cloud s0) _)
    as [w [result | err]]; simpl in Hturn; [|discriminate].
  destruct (find _ (LogGroups result)) as [grp'|] eqn:Hfind;
    simpl in Hturn.
  - injection Hturn as <- <- <-. split; [reflexivity|].
    apply find_some in Hfind as [_ Heq].
    apply String.eqb_eq in Heq. exact Heq.
  - destruct (groups_out_NextToken result); discriminate.
Qed.

End Lookup.

Section Streams.

Context {W : Type} (client : Client W).

(** A loop that leaves by returning: what every turn keeps holds when the
    last turn starts, and what that turn returns is the result. *)
Lemma exec_loop_inv {R S : Type}
      (turn : S -> @sys W -> outcome (S + R))
      (I : @sys W -> Prop) (P : R -> @sys W -> Prop) :
  (forall st s st' s', I s -> turn st s = Done (inl st') s' -> I s') ->
  (forall st s r s', I s -> turn st s = Done (inr r) s' -> P r s') ->
  forall n st s r s',
    I s -> exec_loop turn (fun x s => Done x s) n st s = Done r s' -> P r s'.
Proof.
  intros Hkeep Hleave. induction n as [|n IH]; intros st s r s' HI Hrun;
    simpl in Hrun; [discriminate|].
  destruct (turn st s) as [[st1 | x] s1 | | |] eqn:Ht; try discriminate.
  - eapply IH; [eapply Hkeep; eassumption | eassumption].
  - injection Hrun as <- <-. eapply Hleave; eassumption.
Qed.

(** X9.  [findLogStream] touches neither mutex, nor uploads, nor
    goroutines.  A stream it returns comes without error, has exactly the
    name of the hook's stream, and its upload sequence token is then the
    stored token, the rest of the hook being as it was; when it returns no
    stream the hook is as it was. *)
Theorem findLogStream_stores_upload_token (fuel t : nat) (s s' : @sys W)
        (res : option LogStream) (e : option error) :
  exec client findLogStream fuel t s = Done (res, e) s' ->
  mutex s' = mutex s /\
  uploads s' = uploads s /\
  started s' = started s /\
  threads s' = threads s /\
  match res with
  | Some str =>
    e = None /\
    aws_ToString (stream_LogStreamName str) = stream (hook s) /\
    hook s' = set_nextSequenceToken (UploadSequenceToken str) (hook s)
  | None => hook s' = hook s
  end.
Proof.
  intros Hrun.
  destruct (exec_client_only client findLogStream true fuel t s s' (res, e)
                             findLogStream_client_only Hrun)
    as [(_ & Hm & _ & _ & Hu & Hst & Hth) _].
  repeat (split; [assumption|]).
  unfold findLogStream in Hrun. cbn [exec] in Hrun.
  refine (exec_loop_inv
            _ (fun s1 => hook s1 = hook s)
            (fun r s1 =>
               match fst r with
               | Some str =>
                 snd r = None /\
                 aws_ToString (stream_LogStreamName str) = stream (hook s) /\
                 hook s1
                 = set_nextSequenceToken (UploadSequenceToken str) (hook s)
               | None => hook s1 = hook s
               end)
            _ _ _ _ _ (res, e) _ eq_refl Hrun).
  - clear. intros nextToken s0 st' s1 HI Hturn. simpl in Hturn.
    destruct (svc_DescribeLogStreams client (cloud s0) _)
      as [w [result | err]]; simpl in Hturn; [|discriminate].
    destruct (find _ (LogStreams result)); simpl in Hturn; [discriminate|].
    destruct (streams_out_NextToken result); [|discriminate].
    injection Hturn as _ <-. exact HI.
  - clear. intros nextToken s0 r s1 HI Hturn. simpl in Hturn.
    destruct (svc_DescribeLogStreams client (cloud s0) _)
      as [w [result | err]]; simpl in Hturn.
    + destruct (find _ (LogStreams result)) as [str|] eqn:Hfind;
        simpl in Hturn.
      * injection Hturn as <- <-. simpl. split; [reflexivity|].
        apply find_some in Hfind as [_ Heq].
        apply String.eqb_eq in Heq. rewrite <- HI.
        split; [exact Heq | reflexivity].
      * destruct (streams_out_NextToken result); [discriminate|].
        injection Hturn as <- <-. exact HI.
    + injection Hturn as <- <-. exact HI.
Qed.

(** A loop whose every turn asks for another never leaves. *)
Lemma exec_loop_endless {R S T : Type}
      (turn : S -> @sys W -> outcome (S + T))
      (leave : T -> @sys W -> outcome R) :
  (forall st s, exists st' s', turn st s = Done (inl st') s') ->
  forall n st s, exec_loop turn leave n st s = OutOfFuel.
Proof.
  intros Hturn. induction n as [|n IH]; intros st s; simpl; [reflexivity|].
  destruct (Hturn st s) as (st' & s' & ->). apply IH.
Qed.

(** X10.  Nothing bounds the paging of [findLogGroup]: against a service
    whose every page of groups names a next page and holds no group of the
    name asked for, [NewCloudWatchLogsHook], once the configuration has
    loaded, does not return, however many turns its loops are given. *)
Theorem NewCloudWatchLogsHook_pages_without_end
        (region group_name stream_name : string)
        (options : list CloudWatchLogsHookOption) (fuel t : nat)
        (s : @sys W) :
  (forall w region, svc_LoadDefaultConfig client w region = None) ->
  (forall w input,
      exists w' page tok,
        svc_DescribeLogGroups client w input = (w', inl page) /\
        groups_out_NextToken page = Some tok /\
        find (fun grp =>
                String.eqb (aws_ToString (group_LogGroupName grp))
                           (LogGroupNamePrefix input))
             (LogGroups page) = None) ->
  exec client (NewCloudWatchLogsHook region group_name stream_name options)
       fuel t s
  = OutOfFuel.
Proof.
  intros Hconfig Hpages.
  assert (forall s1 : @sys W, exec client findLogGroup fuel t s1 = OutOfFuel)
    as Hfind.
  { intros s1. unfold findLogGroup. cbn [exec].
    apply exec_loop_endless. intros nextToken s2. simpl.
    destruct (Hpages (cloud s2)
                     {| LogGroupNamePrefix := group (hook s2);
                        groups_NextToken := nextToken |})
      as (w' & page & tok & -> & Htok & Hnone).
    simpl in Hnone. simpl. rewrite Hnone, Htok. simpl. eauto. }
  unfold NewCloudWatchLogsHook. cbn -[bind apply_options].
  rewrite Hconfig. rewrite exec_bind.
  destruct (logFrequency _ >? 0);
    cbn -[bind createLogGroup createLogStream apply_options];
    rewrite exec_bind; unfold createLogGroup; rewrite exec_bind;
    rewrite Hfind; reflexivity.
Qed.

End Streams.

Section Construction.

Context {W : Type} (client : Client W).

(** What follows the start of [putBatch] in [NewCloudWatchLogsHook]. *)
Lemma create_group_and_stream_client_only :
  client_only true
    (err <~ createLogGroup ;;
     match err with
     | Some e => Ret (Some e)
     | None =>
       err <~ createLogStream ;;
       match err with
       | Some e => Ret (Some e)
       | None => Ret None
       end
     end).
Proof.
  apply client_only_bind;
    [apply client_only_weaken, createLogGroup_client_only|].
  intros [e|]; [exact I|].
  apply client_only_bind; [apply createLogStream_client_only|].
  intros [e|]; exact I.
Qed.

(** The state in which [NewCloudWatchLogsHook] returns, hook or error, once
    the configuration has loaded. *)
Lemma NewCloudWatchLogsHook_frame (region group_name stream_name : string)
      (options : list CloudWatchLogsHookOption) (fuel t : nat)
      (s0 s1 : @sys W) (r : option error) :
  svc_LoadDefaultConfig client (cloud s0)
    (if String.eqb region "" then None else Some region) = None ->
  exec client (NewCloudWatchLogsHook region group_name stream_name options)
       fuel t s0 = Done r s1 ->
  let hk := apply_options options (new_hook group_name stream_name) in
  let batching := logFrequency hk >? 0 in
  hook s1 =
  set_nextSequenceToken
    (nextSequenceToken (hook s1))
    (if batching then set_ch (Some (make_chan 10000)) hk else hk) /\
  started s1 = started s0 ++ (if batching then [go_putBatch] else []) /\
  threads s1 = threads s0 ++ (if batching then [putBatch] else []) /\
  mutex s1 = mutex s0 /\
  uploads s1 = uploads s0.
Proof.
  intros Hconfig Hrun hk batching.
  unfold NewCloudWatchLogsHook in Hrun.
  cbn -[bind createLogGroup createLogStream apply_options] in Hrun.
  rewrite Hconfig in Hrun. fold hk in Hrun. rewrite exec_bind in Hrun.
  fold batching in Hrun.
  destruct batching;
    cbn -[bind createLogGroup createLogStream apply_options] in Hrun;
    destruct (exec_client_only client _ true fuel t _ s1 r
                               create_group_and_stream_client_only Hrun)
      as [(Hh & Hm & _ & _ & Hu & Hst & Hth) _];
    simpl in Hh, Hm, Hu, Hst, Hth; rewrite ?app_nil_r; auto.
Qed.


(** X12.  The hook that [NewCloudWatchLogsHook] returns, built in a state
    with a free mutex, no goroutine and no upload, keeps the lock and
    token discipline in all its later use: under every schedule of
    [Write] and [Fire] calls, ticks and goroutine steps, a goroutine about
    to upload holds the mutex, every upload carries the token left by the
    uploads before it, starting from the token the constructor stored,
    and with the mutex free the stored token is the one left by the
    uploads so far. *)
Theorem constructed_hook_keeps_discipline
        (region group_name stream_name : string)
        (options : list CloudWatchLogsHookOption) (fuel t0 : nat)
        (s0 s1 s : @sys W) (schedule : list action) :
  mutex s0 = None ->
  threads s0 = [] ->
  uploads s0 = [] ->
  exec client (NewCloudWatchLogsHook region group_name stream_name options)
       fuel t0 s0 = Done None s1 ->
  run client s1 schedule = Some s ->
  (forall t, uploading s t -> mutex s = Some t) /\
  threaded (nextSequenceToken (hook s1)) (uploads s) /\
  (mutex s = None ->
   nextSequenceToken (hook s)
   = token_after (nextSequenceToken (hook s1)) (uploads s)).
Proof.
  intros Hfree Hths Hups Hnew Hrun.
  assert (Inv (nextSequenceToken (hook s1)) s1) as HInv1.
  { destruct (svc_LoadDefaultConfig
                client (cloud s0)
                (if String.eqb region "" then None else Some region))
      as [e|] eqn:Hconfig.
    - unfold NewCloudWatchLogsHook in Hnew.
      cbn -[bind createLogGroup createLogStream apply_options] in Hnew.
      rewrite Hconfig in Hnew. discriminate.
    - destruct (NewCloudWatchLogsHook_frame
                  region group_name stream_name options fuel t0 s0 s1 None
                  Hconfig Hnew) as (_ & _ & Hth & Hm & Hu).
      cbv zeta in Hth. rewrite Hths in Hth. rewrite Hfree in Hm.
      rewrite Hups in Hu. unfold Inv. rewrite Hu, Hm, Hth. simpl.
      split; [exact I|]. split; [reflexivity|]. split; [discriminate|].
      intros t p Hlook. unfold mode_of.
      destruct (logFrequency _ >? 0); [|destruct t; discriminate].
      destruct t as [|t]; simpl in Hlook; [|destruct t; discriminate].
      injection Hlook as <-. apply putBatch_disciplined. }
  pose proof (Inv_run client _ _ _ _ HInv1 Hrun) as HInv.
  split.
  - intros t (input & k & Hlook).
    apply (Inv_uploading _ _ _ _ _ HInv Hlook).
  - destruct HInv as (Hthr & Htok & _). auto.
Qed.

End Construction.

(** ** The retention days never reach the service *)

Lemma blind_bind {A : Type} (p : prog A) :
  forall (B : Type) (f : A -> prog B),
    blind p -> (forall a, blind (f a)) -> blind (bind p f).
Proof.
  induction p as [A r | A | A X e k IH | A g k IH | A S T body IHbody st k IH];
    intros B f Hp Hf; simpl in *.
  - apply Hf.
  - exact I.
  - destruct e; try contradiction; try (intros x; apply IH; auto).
    destruct Hp as [Hfield Hp]. split; [assumption|].
    intros x. apply IH; auto.
  - apply IH; assumption.
  - destruct Hp as [Hbody Hk]. split; [assumption|].
    intros x. apply IH; auto.
Qed.

Lemma findLogGroup_blind : blind findLogGroup.
Proof.
  unfold findLogGroup; simpl. split; [|intros; exact I].
  intros nextToken. split; [reflexivity|].
  intros g [result | e]; simpl; [|exact I].
  destruct (find _ _); simpl; [exact I|].
  destruct (groups_out_NextToken result); exact I.
Qed.

Lemma findLogStream_blind : blind findLogStream.
Proof.
  unfold findLogStream; simpl. split; [|intros; exact I].
  intros nextToken. split; [reflexivity|]. intros g.
  split; [reflexivity|].
  intros s [result | e]; simpl; [|exact I].
  destruct (find _ _); simpl; [intros; exact I|].
  destruct (streams_out_NextToken result); exact I.
Qed.

Lemma createLogGroup_blind : blind createLogGroup.
Proof.
  unfold createLogGroup. apply blind_bind; [apply findLogGroup_blind|].
  intros [[grp|] [e|]]; try exact I.
  hnf. split; [reflexivity|]. intros g.
  hnf. split; [reflexivity|]. intros tg.
  hnf. split; [reflexivity|]. intros k.
  hnf. intros [e|]; exact I.
Qed.

Lemma createLogStream_blind : blind createLogStream.
Proof.
  unfold createLogStream. apply blind_bind; [apply findLogStream_blind|].
  intros [[str|] [e|]]; try exact I.
  hnf. split; [reflexivity|]. intros g.
  hnf. split; [reflexivity|]. intros s.
  hnf. intros [e|]; [exact I|].
  apply blind_bind; [apply findLogStream_blind|].
  intros [str [e|]]; exact I.
Qed.

Section Retention.

Context {W : Type} (client : Client W).

Lemma start_retain (g : goroutine) (days : Z) (s : @sys W) :
  start g (retain days s) = retain days (start g s).
Proof. reflexivity. Qed.

(** An operation of a blind program does the same with other retention
    days in the hook. *)
Lemma handle_retain {X : Type} (e : eff X) (k : X -> prog unit)
      (t : nat) (pick : bool) (days : Z) (s : @sys W) :
  blind (Do e k) ->
  handle client t pick e (retain days s) =
  match handle client t pick e s with
  | Some (x, s') => Some (x, retain days s')
  | None => None
  end.
Proof.
  intros Hblind. destruct e; simpl in Hblind; try contradiction; simpl;
    try (destruct Hblind as [Hfield _]; rewrite Hfield);
    repeat (try reflexivity;
            match goal with
            | |- context [match ?c with _ => _ end] => destruct c
            end);
    reflexivity.
Qed.

Lemma exec_loop_retain {R S T : Type} (days : Z)
      (turn : S -> @sys W -> outcome (S + T))
      (leave : T -> @sys W -> outcome R) :
  (forall st s, turn st (retain days s)
                = outcome_map (retain days) (turn st s)) ->
  (forall x s, leave x (retain days s)
               = outcome_map (retain days) (leave x s)) ->
  forall n st s,
    exec_loop turn leave n st (retain days s)
    = outcome_map (retain days) (exec_loop turn leave n st s).
Proof.
  intros Hturn Hleave. induction n as [|n IH]; intros st s; simpl;
    [reflexivity|].
  rewrite Hturn. destruct (turn st s) as [[st1 | x] s1 | | |]; simpl; auto.
Qed.

(** A blind program runs the same with other retention days in the hook,
    and leaves them there. *)
Lemma exec_blind {R : Type} (p : prog R) :
  forall (fuel t : nat) (days : Z) (s : @sys W),
    blind p ->
    exec client p fuel t (retain days s)
    = outcome_map (retain days) (exec client p fuel t s).
Proof.
  induction p as [A r0 | A | A X e k IH | A g k IH | A S T body IHbody st k IH];
    intros fuel t days s Hp; simpl exec.
  - reflexivity.
  - reflexivity.
  - assert (blind (Do e (fun _ => Ret tt))) as Hop.
    { destruct e; simpl in *; try contradiction; try (intros; exact I).
      split; [apply Hp | intros; exact I]. }
    rewrite (handle_retain e _ t true days s Hop).
    destruct (handle client t true e s) as [[x s1]|]; [|reflexivity].
    apply IH. destruct e; simpl in Hp; try contradiction; apply Hp.
  - rewrite start_retain. apply IH. exact Hp.
  - destruct Hp as [Hbody Hk].
    apply exec_loop_retain; intros; [apply IHbody | apply IH]; auto.
Qed.

(** X13.  The retention days never reach the service.  Two calls of
    [NewCloudWatchLogsHook] whose options build hooks that differ in the
    retention days only behave alike: the second returns, waits or runs
    on exactly as the first, with the same error, and leaves the same
    state, service included, but for the retention days stored in the
    hook it has placed (none is placed when the configuration fails to
    load). *)
Theorem NewCloudWatchLogsHook_ignores_retention_days
        (region group_name stream_name : string)
        (options options' : list CloudWatchLogsHookOption) (days : Z)
        (fuel t : nat) (s : @sys W) :
  apply_options options' (new_hook group_name stream_name)
  = WithGroupRetentionDays
      days (apply_options options (new_hook group_name stream_name)) ->
  exec client (NewCloudWatchLogsHook region group_name stream_name options')
       fuel t s
  = outcome_map
      (match svc_LoadDefaultConfig
               client (cloud s)
               (if String.eqb region "" then None else Some region) with
       | Some _ => fun s' => s'
       | None => retain days
       end)
      (exec client
            (NewCloudWatchLogsHook region group_name stream_name options)
            fuel t s).
Proof.
  intros Hopts. unfold NewCloudWatchLogsHook.
  cbn -[bind createLogGroup createLogStream apply_options].
  destruct (svc_LoadDefaultConfig client (cloud s) _) as [e|];
    [reflexivity|].
  rewrite Hopts. rewrite !exec_bind.
  set (hk := apply_options options (new_hook group_name stream_name)).
  change (logFrequency (WithGroupRetentionDays days hk))
    with (logFrequency hk).
  assert (blind (err <~ createLogGroup ;;
                 match err with
                 | Some e => Ret (Some e)
                 | None =>
                   err <~ createLogStream ;;
                   match err with
                   | Some e => Ret (Some e)
                   | None => Ret None
                   end
                 end)) as Hrest.
  { apply blind_bind; [apply createLogGroup_blind|].
    intros [e|]; [exact I|].
    apply blind_bind; [apply createLogStream_blind|].
    intros [e|]; exact I. }
  destruct (logFrequency hk >? 0);
    cbn -[bind createLogGroup createLogStream];
    match goal with
    | |- exec client _ fuel t ?s1 = outcome_map _ (exec _ _ _ _ ?s2) =>
      change s1 with (retain days s2)
    end;
    apply exec_blind; exact Hrest.
Qed.

End Retention.

(** ** What holds of every upload under every schedule *)

Section Safety.

Variable HookOK : CloudWatchLogsHook -> Prop.
Variable InputOK : PutLogEventsInput -> Prop.
Variable GoOK : goroutine -> Prop.

Lemma safe_mono {R : Type} (p : prog R) :
  forall Q Q' : R -> Prop,
    (forall r, Q r -> Q' r) ->
    safe HookOK InputOK GoOK Q p -> safe HookOK InputOK GoOK Q' p.
Proof.
  induction p as [A r | A | A X e k IH | A g k IH | A S T body IHbody st k IH];
    intros Q Q' Himp Hp; simpl in *.
  - auto.
  - exact I.
  - destruct e; try contradiction;
      try (intros x; eapply IH; [exact Himp | apply Hp]).
    + intros h Hh. eapply IH; [exact Himp | apply Hp; exact Hh].
    + destruct Hp as [Hin Hp]. split; [assumption|].
      intros r. eapply IH; [exact Himp | apply Hp].
  - destruct Hp as [Hg Hp]. split; [assumption|]. eapply IH; eauto.
  - destruct Hp as (J & HJ & Hbody). exists J. split; [assumption|].
    intros st' HJ'. eapply IHbody; [|apply Hbody; exact HJ'].
    intros [st''|x]; [auto|]. apply IH. exact Himp.
Qed.

Lemma safe_bind {A : Type} (p : prog A) :
  forall (B : Type) (f : A -> prog B) (P : A -> Prop) (Q : B -> Prop),
    safe HookOK InputOK GoOK P p ->
    (forall a, P a -> safe HookOK InputOK GoOK Q (f a)) ->
    safe HookOK InputOK GoOK Q (bind p f).
Proof.
  induction p as [A r | A | A X e k IH | A g k IH | A S T body IHbody st k IH];
    intros B f P Q Hp Hf; simpl in *.
  - auto.
  - exact I.
  - destruct e; try contradiction;
      try (intros x; eapply IH; [apply Hp | exact Hf]).
    + intros h Hh. eapply IH; [apply Hp; exact Hh | exact Hf].
    + destruct Hp as [Hin Hp]. split; [assumption|].
      intros r. eapply IH; [apply Hp | exact Hf].
  - destruct Hp as [Hg Hp]. split; [assumption|]. eapply IH; eauto.
  - destruct Hp as (J & HJ & Hbody). exists J. split; [assumption|].
    intros st' HJ'. eapply safe_mono; [|apply Hbody; exact HJ'].
    intros [st''|x]; [auto|]. intros Hk. eapply IH; [exact Hk | exact Hf].
Qed.

Context {W : Type} (client : Client W).

Hypothesis HookOK_stable : stable HookOK.
Hypothesis body_of_safe :
  forall g, GoOK g -> safe HookOK InputOK GoOK (fun _ => True) (body_of g).
Hypothesis Write_safe :
  forall msg, safe HookOK InputOK GoOK (fun _ => True) (Write msg).
Hypothesis Fire_safe :
  forall entry, safe HookOK InputOK GoOK (fun _ => True) (Fire entry).

Lemma all_safe_call {R : Type} (p : prog R) (s : @sys W) :
  all_safe HookOK InputOK GoOK s ->
  safe HookOK InputOK GoOK (fun _ => True) p ->
  all_safe HookOK InputOK GoOK (call p s).
Proof.
  intros (Hh & Hths & Hups & Hst) Hp. unfold all_safe, call; simpl.
  repeat (split; [assumption|]). split; [|split; assumption].
  apply Forall_app. split; [assumption|].
  constructor; [|constructor].
  eapply safe_bind; [exact Hp | intros; exact I].
Qed.

(** An operation of a safe goroutine keeps the system safe. *)
Lemma all_safe_handle (s s1 : @sys W) (t : nat) (pick : bool) {X : Type}
      (e : eff X) (k : X -> prog unit) (x : X) :
  all_safe HookOK InputOK GoOK s ->
  safe HookOK InputOK GoOK (fun _ => True) (Do e k) ->
  handle client t pick e s = Some (x, s1) ->
  all_safe HookOK InputOK GoOK
           (with_threads (<[t := k x]> (threads s1)) s1).
Proof.
  intros (Hh & Hths & Hups & Hst) Hp Hhandle.
  destruct (HookOK_stable _ Hh) as (Htok & Herr & Hsend & Htake).
  unfold all_safe.
  destruct e; simpl in Hp, Hhandle;
    repeat match type of Hhandle with
           | context [let '(_, _) := ?c in _] => destruct c
           end.
  - (* Now *)
    injection Hhandle as <- <-. simpl.
    auto using Forall_insert.
  - (* Get *)
    injection Hhandle as <- <-. simpl.
    auto using Forall_insert.
  - (* SetNextSequenceToken *)
    injection Hhandle as <- <-. simpl.
    auto using Forall_insert.
  - (* SetErr *)
    injection Hhandle as <- <-. simpl.
    auto using Forall_insert.
  - (* ChanSend *)
    destruct (ch (hook s)) as [c|] eqn:Hch; [|discriminate].
    destruct (slice_len (buffer c) <? capacity c); [|discriminate].
    injection Hhandle as <- <-. simpl.
    auto using Forall_insert.
  - (* Select *)
    destruct (ch (hook s)) as [[cap [|p rest]]|] eqn:Hch; simpl in Hhandle;
      destruct (ticker s); try discriminate;
      try destruct pick;
      injection Hhandle as <- <-; simpl;
      try (specialize (Htake _ p rest eq_refl eq_refl); simpl in Htake);
      auto using Forall_insert.
  - (* Lock *)
    destruct (mutex s); [discriminate|].
    injection Hhandle as <- <-. simpl.
    auto using Forall_insert.
  - (* Unlock *)
    destruct (mutex s); [|discriminate].
    injection Hhandle as <- <-. simpl.
    auto using Forall_insert.
  - (* PutLogEvents *)
    injection Hhandle as <- <-. simpl. destruct Hp as [Hin Hp].
    repeat split; auto using Forall_insert.
    apply Forall_app. split; [assumption|]. constructor; [exact Hin|].
    constructor.
  - (* LoadDefaultConfig *)
    injection Hhandle as <- <-. simpl.
    auto using Forall_insert.
  - (* NewHook *)
    contradiction.
  - injection Hhandle as <- <-. simpl. auto using Forall_insert.
  - injection Hhandle as <- <-. simpl. auto using Forall_insert.
  - injection Hhandle as <- <-. simpl. auto using Forall_insert.
  - injection Hhandle as <- <-. simpl. auto using Forall_insert.
Qed.

Lemma all_safe_step (s s' : @sys W) (a : action) :
  all_safe HookOK InputOK GoOK s ->
  step client s a = Some s' ->
  all_safe HookOK InputOK GoOK s'.
Proof.
  intros Hsafe Hstep. destruct a as [msg | entry | | now | t pick];
    simpl in Hstep.
  - injection Hstep as <-. apply all_safe_call; auto.
  - injection Hstep as <-. apply all_safe_call; auto.
  - injection Hstep as <-. exact Hsafe.
  - injection Hstep as <-. exact Hsafe.
  - destruct (threads s !! t) as [p|] eqn:Hlook; [|discriminate].
    pose proof Hsafe as (Hh & Hths & Hups & Hst).
    pose proof (Forall_lookup_1 _ _ _ _ Hths Hlook) as Hp.
    destruct p as [r | | X e k | g k | S T body st k]; try discriminate.
    + destruct (handle client t pick e s) as [[x s1]|] eqn:Hhandle;
        [|discriminate].
      injection Hstep as <-. eapply all_safe_handle; eassumption.
    + injection Hstep as <-. destruct Hp as [Hg Hk].
      unfold all_safe; simpl.
      split; [assumption|]. split; [|split; [assumption|]].
      * apply Forall_insert; [|assumption].
        apply Forall_app. split; [assumption|].
        constructor; [apply body_of_safe; assumption | constructor].
      * apply Forall_app. split; [assumption|].
        constructor; [assumption | constructor].
    + injection Hstep as <-. destruct Hp as (J & HJ & Hbody).
      unfold all_safe; simpl.
      split; [assumption|]. split; [|split; assumption].
      apply Forall_insert; [assumption|].
      eapply safe_bind; [apply Hbody; exact HJ|].
      intros [st'|x]; [|auto].
      intros HJ'. simpl. exists J. split; assumption.
Qed.

Lemma all_safe_run (schedule : list action) :
  forall s s' : @sys W,
    all_safe HookOK InputOK GoOK s ->
    run client s schedule = Some s' ->
    all_safe HookOK InputOK GoOK s'.
Proof.
  induction schedule as [|a rest IH]; intros s s' Hsafe Hrun; simpl in Hrun.
  - injection Hrun as <-. assumption.
  - destruct (step client s a) as [s1|] eqn:Hstep; [|discriminate].
    apply (IH s1); [eapply all_safe_step; eassumption | assumption].
Qed.

End Safety.

Lemma loop_inv_within_limits (batch : list InputLogEvent) (size : Z) :
  loop_inv (batch, size) -> within_limits batch.
Proof. intros (_ & Hcount & Hbytes). split; assumption. Qed.

Lemma loop_inv_next (batch : list InputLogEvent) (size : Z)
      (p : InputLogEvent) :
  loop_inv (batch, size) ->
  loop_inv (if (size + event_size p >? 1048576)
               || (slice_len batch =? 10000)
            then ([p], event_size p)
            else (batch ++ [p], size + event_size p)).
Proof.
  intros Hinv.
  destruct (feed_iteration_inv (batch, size) (case_ch p) Hinv)
    as (gs & st' & Hfeed & Hinv' & _).
  rewrite feed_iteration_ch in Hfeed.
  destruct ((size + event_size p >? 1048576) || (slice_len batch =? 10000));
    injection Hfeed as _ <-; exact Hinv'.
Qed.

(** ** What is uploaded is what was handed over *)

Lemma spends_weaken {R : Type} (p : prog R) :
  forall b, spends None p -> spends b p.
Proof.
  induction p as [A r | A | A X e k IH | A g k IH | A S T body IHbody st k IH];
    intros b Hp; simpl in *.
  - exact I.
  - exact I.
  - destruct e; try contradiction; try (intros x; apply IH; apply Hp).
    + intros h Hh. apply IH. apply Hp. exact Hh.
    + destruct Hp as [Hb _]. discriminate.
  - apply IH. exact Hp.
  - exact Hp.
Qed.

Lemma spends_bind {A : Type} (p : prog A) :
  forall (B : Type) (f : A -> prog B) (b : option (list InputLogEvent)),
    spends b p -> (forall a, spends None (f a)) -> spends b (bind p f).
Proof.
  induction p as [A r | A | A X e k IH | A g k IH | A S T body IHbody st k IH];
    intros B f b Hp Hf; simpl in *.
  - apply spends_weaken. apply Hf.
  - exact I.
  - destruct e; try contradiction;
      try (intros x; apply IH; [apply Hp | exact Hf]).
    + intros h Hh. apply IH; [apply Hp; exact Hh | exact Hf].
    + destruct Hp as [Hb Hp]. split; [exact Hb|].
      intros r. apply IH; [apply Hp | exact Hf].
  - apply IH; assumption.
  - destruct Hp as [Hbody Hk]. split; [exact Hbody|].
    intros x. apply IH; [apply Hk | exact Hf].
Qed.

Lemma Write_spends (msg : string) : spends None (Write msg).
Proof.
  unfold Write. simpl. intros now h Hh.
  destruct (ch h) as [c|]; [|congruence]. simpl.
  intros _ h2 _. destruct (err h2); simpl; [|exact I].
  intros h3 _ _. destruct (err h3); exact I.
Qed.

Lemma Fire_spends (entry : Entry) : spends None (Fire entry).
Proof.
  unfold Fire. destruct (EntryString entry); [|exact I].
  destruct (EntryLevel entry); try exact I;
    (apply spends_bind; [apply Write_spends|]); intros [n e]; exact I.
Qed.

Lemma body_of_spends (g : goroutine) : spends (batch_of g) (body_of g).
Proof.
  destruct g as [|batch]; simpl.
  - split; [|intros []].
    intros [batch size]. simpl. intros [p|]; simpl; [|exact I].
    destruct ((size + (len (Message p) + 26) >? 1048576)
              || (slice_len batch =? 10000)); exact I.
  - unfold sendBatch. simpl. intros _.
    destruct (slice_len batch =? 0); simpl; [intros; exact I|].
    intros h1 _ h2 _ h3 _. split; [reflexivity|].
    intros [result | e]; simpl; intros; exact I.
Qed.

Lemma pending_app (bs bs' : list (option (list InputLogEvent))) :
  pending (bs ++ bs') = pending bs ++ pending bs'.
Proof.
  induction bs as [|[b|] bs IH]; simpl; [reflexivity| |exact IH].
  rewrite IH. reflexivity.
Qed.

Lemma pending_spent (bs : list (option (list InputLogEvent))) :
  forall (t : nat) (b : list InputLogEvent),
    bs !! t = Some (Some b) ->
    Permutation (pending bs) (b :: pending (<[t := None]> bs)).
Proof.
  induction bs as [|o bs IH]; intros t b Hlook; [discriminate|].
  destruct t as [|t]; simpl in *.
  - injection Hlook as ->. reflexivity.
  - destruct o as [b'|]; [|apply IH; exact Hlook].
    rewrite (IH t b Hlook). apply perm_swap.
Qed.

Lemma batches_of_snoc (gs : list goroutine) (g : goroutine) :
  batches_of (gs ++ [g]) = batches_of gs ++ pending [batch_of g].
Proof.
  induction gs as [|[|b] gs IH]; simpl.
  - destruct g; reflexivity.
  - exact IH.
  - rewrite IH. reflexivity.
Qed.

Section Books.

Context {W : Type} (client : Client W).

Lemma balanced_call {R : Type} (p : prog R) (s : @sys W) :
  balanced s -> spends None p -> balanced (call p s).
Proof.
  intros (Hch & bs & Hths & Hperm) Hp. split; [exact Hch|].
  exists (bs ++ [None]). unfold call; simpl. split.
  - apply Forall2_app; [exact Hths|].
    constructor; [|constructor].
    apply spends_bind; [exact Hp | intros; exact I].
  - rewrite pending_app. simpl. rewrite app_nil_r. exact Hperm.
Qed.

Lemma balanced_handle (s s1 : @sys W) (t : nat) (pick : bool) {X : Type}
      (e : eff X) (k : X -> prog unit) (x : X) :
  balanced s ->
  threads s !! t = Some (Do e k) ->
  handle client t pick e s = Some (x, s1) ->
  balanced (with_threads (<[t := k x]> (threads s1)) s1).
Proof.
  intros (Hch & bs & Hths & Hperm) Hlook Hhandle.
  destruct (Forall2_lookup_r _ _ _ _ _ Hths Hlook) as (b & Hb & Hp).
  assert (forall p', spends b p' ->
                     Forall2 spends bs (<[t := p']> (threads s))) as Hkeep.
  { intros p' Hp'. rewrite <- (list_insert_id bs t b Hb).
    apply Forall2_insert; assumption. }
  unfold balanced, uploaded.
  destruct e; simpl in Hp, Hhandle;
    repeat match type of Hhandle with
           | context [let '(_, _) := ?c in _] => destruct c
           end;
    try contradiction;
    try (injection Hhandle as <- <-; simpl;
         split; [first [exact Hch | discriminate]|];
         exists bs; split; [apply Hkeep; auto | exact Hperm]).
  - (* ChanSend *)
    destruct (ch (hook s)) as [c|] eqn:Hc; [|discriminate].
    destruct (slice_len (buffer c) <? capacity c); [|discriminate].
    injection Hhandle as <- <-. simpl. split; [discriminate|].
    exists bs. split; [apply Hkeep; auto | exact Hperm].
  - (* Select *)
    destruct (ch (hook s)) as [[cap [|p rest]]|] eqn:Hc; simpl in Hhandle;
      destruct (ticker s); try discriminate;
      try destruct pick;
      injection Hhandle as <- <-; simpl;
      (split; [first [discriminate | rewrite Hc; discriminate | congruence]|]);
      exists bs; (split; [apply Hkeep; auto | exact Hperm]).
  - (* Lock *)
    destruct (mutex s); [discriminate|].
    injection Hhandle as <- <-. simpl. split; [exact Hch|].
    exists bs. split; [apply Hkeep; auto | exact Hperm].
  - (* Unlock *)
    destruct (mutex s); [|discriminate].
    injection Hhandle as <- <-. simpl. split; [exact Hch|].
    exists bs. split; [apply Hkeep; auto | exact Hperm].
  - (* PutLogEvents *)
    injection Hhandle as <- <-. simpl. destruct Hp as [-> Hp].
    split; [exact Hch|].
    exists (<[t := None]> bs). split.
    + apply Forall2_insert; [exact Hths | apply Hp].
    + rewrite map_app. simpl. rewrite <- Hperm.
      unfold uploaded. rewrite <- app_assoc. apply Permutation_app_head.
      simpl. symmetry. apply pending_spent. exact Hb.
Qed.

Lemma balanced_step (s s' : @sys W) (a : action) :
  balanced s -> step client s a = Some s' -> balanced s'.
Proof.
  intros Hbal Hstep. destruct a as [msg | entry | | now | t pick];
    simpl in Hstep.
  - injection Hstep as <-. apply balanced_call; [exact Hbal|].
    apply Write_spends.
  - injection Hstep as <-. apply balanced_call; [exact Hbal|].
    apply Fire_spends.
  - injection Hstep as <-. exact Hbal.
  - injection Hstep as <-. exact Hbal.
  - destruct (threads s !! t) as [p|] eqn:Hlook; [|discriminate].
    destruct p as [r | | X e k | g k | S T body st k]; try discriminate.
    + destruct (handle client t pick e s) as [[x s1]|] eqn:Hhandle;
        [|discriminate].
      injection Hstep as <-. eapply balanced_handle; eassumption.
    + injection Hstep as <-.
      destruct Hbal as (Hch & bs & Hths & Hperm).
      destruct (Forall2_lookup_r _ _ _ _ _ Hths Hlook) as (b & Hb & Hp).
      split; [exact Hch|]. simpl in Hp.
      exists (bs ++ [batch_of g]). simpl. split.
      * rewrite <- (list_insert_id (bs ++ [batch_of g]) t b).
        -- apply Forall2_insert; [|exact Hp].
           apply Forall2_app; [exact Hths|].
           constructor; [apply body_of_spends | constructor].
        -- apply lookup_app_l_Some. exact Hb.
      * rewrite pending_app, batches_of_snoc, app_assoc.
        apply Permutation_app_tail. exact Hperm.
    + injection Hstep as <-.
      destruct Hbal as (Hch & bs & Hths & Hperm).
      destruct (Forall2_lookup_r _ _ _ _ _ Hths Hlook) as (b & Hb & Hp).
      split; [exact Hch|]. destruct Hp as [Hbody Hk].
      exists bs. simpl. split; [|exact Hperm].
      rewrite <- (list_insert_id bs t b Hb).
      apply Forall2_insert; [exact Hths|].
      apply spends_weaken.
      apply spends_bind; [apply Hbody|].
      intros [st'|x]; [split; assumption | apply Hk].
Qed.

Lemma balanced_run (schedule : list action) :
  forall s s' : @sys W,
    balanced s -> run client s schedule = Some s' -> balanced s'.
Proof.
  induction schedule as [|a rest IH]; intros s s' Hbal Hrun; simpl in Hrun.
  - injection Hrun as <-. assumption.
  - destruct (step client s a) as [s1|] eqn:Hstep; [|discriminate].
    apply (IH s1); [eapply balanced_step; eassumption | assumption].
Qed.

Lemma balanced_initial (h : CloudWatchLogsHook) (w : W) :
  ch h <> None -> balanced (initial h w).
Proof.
  intros Hch. split; [exact Hch|]. exists [None].
  unfold initial, uploaded; simpl.
  destruct (ch h) as [c|]; [|congruence].
  split; [|reflexivity].
  constructor; [|constructor]. apply (body_of_spends go_putBatch).
Qed.

End Books.

Section Schedules.

Context {W : Type} (client : Client W).

(** X14.  A hook without a channel stays one: under every schedule of
    [Write] and [Fire] calls, ticks and goroutine steps, the channel stays
    nil, no goroutine is ever started, and every upload made carries
    exactly one event. *)
Theorem unbatched_hook_uploads_single_events (h : CloudWatchLogsHook)
        (w : W) (schedule : list action) (s : @sys W) :
  ch h = None ->
  run client (initial h w) schedule = Some s ->
  ch (hook s) = None /\
  started s = [] /\
  Forall (fun u => exists ev, LogEvents (fst u) = [ev]) (uploads s).
Proof.
  intros Hnil Hrun.
  pose (HookOK := fun h' : CloudWatchLogsHook => ch h' = None).
  pose (InputOK := fun i : PutLogEventsInput => exists ev, LogEvents i = [ev]).
  pose (GoOK := fun _ : goroutine => False).
  assert (forall msg, safe HookOK InputOK GoOK (fun _ => True) (Write msg))
    as HWrite.
  { intros msg. unfold Write. simpl. intros now h1 Hh1. unfold HookOK in Hh1.
    rewrite Hh1. simpl. intros _ h2 _ h3 _ h4 _.
    split; [eexists; reflexivity|].
    intros [result | e]; simpl; intros; exact I. }
  assert (all_safe HookOK InputOK GoOK s) as (Hh & _ & Hups & Hst).
  { refine (all_safe_run HookOK InputOK GoOK client _ _ _ _
                         schedule (initial h w) s _ Hrun).
    - intros h1 Hh1. unfold HookOK in *. simpl.
      repeat split; auto; intros; congruence.
    - intros g [].
    - exact HWrite.
    - intros entry. unfold Fire.
      destruct (EntryString entry); [|exact I].
      destruct (EntryLevel entry); try exact I;
        (eapply safe_bind; [apply HWrite|]); intros [n e] _; exact I.
    - unfold all_safe, initial; simpl. rewrite Hnil.
      repeat split; auto. }
  split; [exact Hh|]. split; [|exact Hups].
  destruct (started s) as [|g rest]; [reflexivity|].
  inversion Hst as [|? ? Hg _]. destruct Hg.
Qed.

(** X15.  A hook with a channel uploads only what [putBatch] batched:
    under every schedule, the channel stays in place, and every goroutine
    started is a [sendBatch] on a batch within the limits (at most
    10,000 events, and at most 1,048,576 bytes unless it is one single
    event).  Counted with repetitions, the batches uploaded are among the
    batches that [sendBatch] was started on: a batch handed over is
    uploaded at most once, and nothing else is uploaded, so that [Write]
    and [Fire] never upload by themselves.  Hence every upload made carries
    a batch within the limits. *)
Theorem batched_hook_uploads_within_limits (h : CloudWatchLogsHook)
        (w : W) (schedule : list action) (s : @sys W) :
  ch h <> None ->
  run client (initial h w) schedule = Some s ->
  ch (hook s) <> None /\
  Forall (fun g => exists batch,
              g = go_sendBatch batch /\ within_limits batch) (started s) /\
  submseteq (uploaded s) (batches_of (started s)) /\
  Forall (fun u => within_limits (LogEvents (fst u))) (uploads s).
Proof.
  intros Hch Hrun.
  pose (HookOK := fun h' : CloudWatchLogsHook => ch h' <> None).
  pose (InputOK := fun i : PutLogEventsInput => within_limits (LogEvents i)).
  pose (GoOK := fun g : goroutine =>
                  exists batch, g = go_sendBatch batch /\ within_limits batch).
  assert (forall msg, safe HookOK InputOK GoOK (fun _ => True) (Write msg))
    as HWrite.
  { intros msg. unfold Write. simpl. intros now h1 Hh1. unfold HookOK in Hh1.
    destruct (ch h1) as [c|]; [|congruence]. simpl.
    intros _ h2 _. destruct (err h2); simpl; [|exact I].
    intros h3 _ _. destruct (err h3); exact I. }
  assert (all_safe HookOK InputOK GoOK s) as (Hh & _ & Hups & Hst).
  { refine (all_safe_run HookOK InputOK GoOK client _ _ _ _
                         schedule (initial h w) s _ Hrun).
    - intros h1 Hh1. unfold HookOK in *. simpl.
      repeat split; auto; intros; discriminate.
    - intros g (batch & -> & Hlimits). simpl. unfold sendBatch. simpl.
      intros _. destruct (slice_len batch =? 0); simpl; [intros; exact I|].
      intros h1 _ h2 _ h3 _. split; [exact Hlimits|].
      intros [result | e]; simpl; intros; exact I.
    - exact HWrite.
    - intros entry. unfold Fire.
      destruct (EntryString entry); [|exact I].
      destruct (EntryLevel entry); try exact I;
        (eapply safe_bind; [apply HWrite|]); intros [n e] _; exact I.
    - unfold all_safe, initial; simpl.
      destruct (ch h) as [c|] eqn:Hc; [|congruence].
      split; [unfold HookOK; congruence|].
      split; [|split; constructor].
      constructor; [|constructor].
      unfold putBatch. simpl. exists loop_inv.
      split; [apply loop_inv_start|].
      intros [batch size] Hinv. simpl. intros [p|]; simpl.
      + pose proof (loop_inv_next batch size p Hinv) as Hnext.
        unfold event_size in Hnext.
        destruct ((size + (len (Message p) + 26) >? 1048576)
                  || (slice_len batch =? 10000)); simpl.
        * split; [|exact Hnext].
          exists batch. split; [reflexivity|].
          apply (loop_inv_within_limits batch size Hinv).
        * exact Hnext.
      + split; [|apply loop_inv_start].
        exists batch. split; [reflexivity|].
        apply (loop_inv_within_limits batch size Hinv). }
  split; [exact Hh|]. split; [exact Hst|]. split; [|exact Hups].
  destruct (balanced_run client schedule (initial h w) s
                         (balanced_initial h w Hch) Hrun)
    as (_ & bs & _ & Hperm).
  rewrite <- Hperm. apply submseteq_inserts_r. reflexivity.
Qed.

(** X16.  Every upload goes to the hook's own group and stream: under
    every schedule, the group and the stream of the hook stay what they
    were, and every [PutLogEvents] request made, by [Write] or by
    [sendBatch], names that group and that stream. *)
Theorem uploads_go_to_the_hook_stream (h : CloudWatchLogsHook)
        (w : W) (schedule : list action) (s : @sys W) :
  run client (initial h w) schedule = Some s ->
  group (hook s) = group h /\
  stream (hook s) = stream h /\
  Forall (fun u => LogGroupName (fst u) = group h /\
                   LogStreamName (fst u) = stream h) (uploads s).
Proof.
  intros Hrun.
  pose (HookOK := fun h' : CloudWatchLogsHook =>
                    group h' = group h /\ stream h' = stream h).
  pose (InputOK := fun i : PutLogEventsInput =>
                     LogGroupName i = group h /\ LogStreamName i = stream h).
  pose (GoOK := fun _ : goroutine => True).
  assert (forall msg, safe HookOK InputOK GoOK (fun _ => True) (Write msg))
    as HWrite.
  { intros msg. unfold Write. simpl. intros now h1 _.
    destruct (ch h1) as [c|]; simpl.
    - intros _ h2 _. destruct (err h2); simpl; [|exact I].
      intros h3 _ _. destruct (err h3); exact I.
    - intros _ h2 [Hg _] h3 [_ Hs] h4 _. split; [split; assumption|].
      intros [result | e]; simpl; intros; exact I. }
  assert (all_safe HookOK InputOK GoOK s) as ([Hg Hs] & _ & Hups & _).
  { refine (all_safe_run HookOK InputOK GoOK client _ _ _ _
                         schedule (initial h w) s _ Hrun).
    - intros h1 Hh1. unfold HookOK in *. simpl. repeat split; apply Hh1.
    - intros [|batch] _; simpl.
      + exists (fun _ => True). split; [exact I|].
        intros [batch size] _. simpl. intros [p|]; simpl;
          [|repeat split].
        destruct ((size + (len (Message p) + 26) >? 1048576)
                  || (slice_len batch =? 10000)); simpl; repeat split.
      + unfold sendBatch. simpl.
        intros _. destruct (slice_len batch =? 0); simpl; [intros; exact I|].
        intros h1 [Hg _] h2 [_ Hs] h3 _. split; [split; assumption|].
        intros [result | e]; simpl; intros; exact I.
    - exact HWrite.
    - intros entry. unfold Fire.
      destruct (EntryString entry); [|exact I].
      destruct (EntryLevel entry); try exact I;
        (eapply safe_bind; [apply HWrite|]); intros [n e] _; exact I.
    - unfold all_safe, initial; simpl.
      split; [split; reflexivity|].
      split; [|split; constructor].
      destruct (ch h); constructor; [|constructor].
      unfold putBatch. simpl. exists (fun _ => True). split; [exact I|].
      intros [batch size] _. simpl. intros [p|]; simpl; [|repeat split].
      destruct ((size + (len (Message p) + 26) >? 1048576)
                || (slice_len batch =? 10000)); simpl; repeat split. }
  split; [exact Hg|]. split; [exact Hs | exact Hups].
Qed.

End Schedules.

(** ** Creating the group *)

Section Creation.

Context {W : Type} (client : Client W).

(** X17.  [createLogGroup] creates only what is absent.  When the lookup
    fails it returns that error, and when the lookup finds the group it
    returns no error, in both cases leaving the state as the lookup left
    it.  When the lookup finds nothing it calls [CreateLogGroup] once, for
    the hook's group, with the hook's tags unless there are none and with
    the KMS key unless it is empty, and returns what that call returns. *)
Theorem createLogGroup_creates_only_when_absent (fuel t : nat)
        (s : @sys W) :
  exec client createLogGroup fuel t s =
  match exec client findLogGroup fuel t s with
  | Done (_, Some e) s1 => Done (Some e) s1
  | Done (Some _, None) s1 => Done None s1
  | Done (None, None) s1 =>
    let input :=
      {| create_LogGroupName := group (hook s1);
         Tags := if decide (tags (hook s1) = ∅) then None
                 else Some (tags (hook s1));
         KmsKeyId := if decide (kmsKeyID (hook s1) = "") then None
                     else Some (kmsKeyID (hook s1)) |} in
    let wr := svc_CreateLogGroup client (cloud s1) input in
    Done (snd wr) (with_cloud (fst wr) s1)
  | Blocked => Blocked
  | Panicked => Panicked
  | OutOfFuel => OutOfFuel
  end.
Proof.
  unfold createLogGroup. rewrite exec_bind.
  destruct (exec client findLogGroup fuel t s)
    as [[[grp|] [e|]] s1| | |]; try reflexivity.
  simpl.
  assert ((if Z.of_nat (size (tags (hook s1))) >? 0
           then Some (tags (hook s1)) else None)
          = (if decide (tags (hook s1) = ∅) then None
             else Some (tags (hook s1)))) as ->.
  { destruct (decide (tags (hook s1) = ∅)) as [Hempty | Hsome].
    - rewrite Hempty. reflexivity.
    - assert (size (tags (hook s1)) <> 0%nat) as Hsize.
      { intros H0. apply Hsome. apply map_size_empty_iff. exact H0. }
      destruct (Z.gtb_spec (Z.of_nat (size (tags (hook s1)))) 0);
        [reflexivity | lia]. }
  assert ((if String.eqb (kmsKeyID (hook s1)) "" then None
           else Some (kmsKeyID (hook s1)))
          = (if decide (kmsKeyID (hook s1) = "") then None
             else Some (kmsKeyID (hook s1)))) as ->.
  { destruct (String.eqb_spec (kmsKeyID (hook s1)) "");
      destruct (decide (kmsKeyID (hook s1) = "")); congruence. }
  destruct (svc_CreateLogGroup client (cloud s1) _) as [w [e|]];
    reflexivity.
Qed.

End Creation.

(** ** The further properties on the sample data *)

Lemma sendBatch_sequence_witness :
  exists s' new,
    exec scripted (send_all [[small_event]; []; [big_event]]) 0 1
         (initial example_hook
                  [inr boom; inl {| NextSequenceToken := Some "t1" |}])
    = Done tt s' /\
    uploads s' = [] ++ new /\
    map (fun u => LogEvents (fst u)) new
    = nonempty_batches [[small_event]; []; [big_event]] /\
    threaded None new /\
    nextSequenceToken (hook s') = token_after None new /\
    err (hook s') = last_error None new /\
    mutex s' = None.
Proof.
  apply (sendBatch_sequence
           scripted [[small_event]; []; [big_event]] 0 1
           (initial example_hook
                    [inr boom; inl {| NextSequenceToken := Some "t1" |}])).
  reflexivity.
Defined.

Lemma Write_reports_cached_error_once_witness :
  exists s1 s2,
    exec scripted (Write "first") 0 1
         (initial (set_err (Some boom) batched_hook) [])
    = Done (0, Some (FmtError "InvalidSequenceTokenException")) s1 /\
    exec scripted (Write "second") 0 2 s1 = Done (6, None) s2 /\
    ch (hook s2) =
    Some {| capacity := 10000;
            buffer := [{| Message := "first"; Timestamp := 0 |};
                       {| Message := "second"; Timestamp := 0 |}] |}.
Proof.
  apply (Write_reports_cached_error_once
           scripted "first" "second" 0 1 2
           (initial (set_err (Some boom) batched_hook) [])
           (make_chan 10000) boom); reflexivity.
Defined.

Lemma Write_timestamp_in_milliseconds_witness :
  exists ev,
    Message ev = "hello" /\
    1000000 * Timestamp ev <= 1700000000123456789
    < 1000000 * Timestamp ev + 1000000 /\
    (ch example_hook = None ->
     mutex clocked_state = None ->
     exists r answer s',
       exec scripted (Write "hello") 0 0
            clocked_state
       = Done r s' /\
       uploads s' = [] ++ [(request example_hook [ev], answer)]) /\
    (forall c,
        ch example_hook = Some c ->
        slice_len (buffer c) < capacity c ->
        exists r s',
          exec scripted (Write "hello") 0 0
               clocked_state
          = Done r s' /\
          ch (hook s') = Some {| capacity := capacity c;
                                 buffer := buffer c ++ [ev] |}).
Proof.
  apply (Write_timestamp_in_milliseconds
           scripted "hello" 0 0
           clocked_state).
  split; [vm_compute; discriminate | vm_compute; reflexivity].
Defined.

Lemma Fire_runs_Write_on_the_line_witness :
  exec scripted (Fire info_entry) 0 0 (initial example_hook []) =
  match exec scripted (Write "level=info msg=started") 0 0
             (initial example_hook []) with
  | Done (_, err) s' => Done err s'
  | Blocked => Blocked
  | Panicked => Panicked
  | OutOfFuel => OutOfFuel
  end.
Proof.
  apply (Fire_runs_Write_on_the_line
           scripted info_entry "level=info msg=started" 0 0
           (initial example_hook [])).
  - reflexivity.
  - simpl. auto 10.
  - discriminate.
Defined.

Lemma findLogGroup_finds_exact_name_witness :
  exec provisioned findLogGroup 1 0 (initial example_hook tt)
  = Done (Some {| group_LogGroupName := Some "grp" |}, None)
         (initial example_hook tt) /\
  forall grp,
    Some {| group_LogGroupName := Some "grp" |} = Some grp ->
    @None error = None /\ aws_ToString (group_LogGroupName grp) = "grp".
Proof.
  split; [reflexivity|].
  apply (findLogGroup_finds_exact_name
           provisioned 1 0 (initial example_hook tt)
           (initial example_hook tt)
           (Some {| group_LogGroupName := Some "grp" |}) None eq_refl).
Defined.

Lemma findLogStream_stores_upload_token_witness :
  exec provisioned findLogStream 1 0 (initial example_hook tt)
  = Done (Some {| stream_LogStreamName := Some "str";
                  UploadSequenceToken := Some "t0" |}, None)
         (initial (set_nextSequenceToken (Some "t0") example_hook) tt) /\
  hook (initial (set_nextSequenceToken (Some "t0") example_hook) tt)
  = set_nextSequenceToken (Some "t0") example_hook.
Proof.
  split; [reflexivity|].
  apply (findLogStream_stores_upload_token
           provisioned 1 0 (initial example_hook tt)
           (initial (set_nextSequenceToken (Some "t0") example_hook) tt)
           (Some {| stream_LogStreamName := Some "str";
                    UploadSequenceToken := Some "t0" |}) None eq_refl).
Defined.

Lemma NewCloudWatchLogsHook_pages_without_end_witness :
  exec endless (NewCloudWatchLogsHook "" "grp" "str" []) 1000 0
       (initial (new_hook "" "") tt)
  = OutOfFuel.
Proof.
  apply (NewCloudWatchLogsHook_pages_without_end
           endless "" "grp" "str" [] 1000 0 (initial (new_hook "" "") tt)).
  - reflexivity.
  - intros w input. exists w. eexists _, _.
    split; [reflexivity|]. split; reflexivity.
Defined.


Lemma constructed_hook_keeps_discipline_witness :
  exists s,
    run scripted
        (initial example_hook
                 [inl {| NextSequenceToken := Some "t1" |};
                  inl {| NextSequenceToken := Some "t2" |}])
        two_writes = Some s /\
    (forall t, uploading s t -> mutex s = Some t) /\
    threaded None (uploads s) /\
    (mutex s = None ->
     nextSequenceToken (hook s) = token_after None (uploads s)).
Proof.
  eexists. split; [vm_compute; reflexivity|].
  apply (constructed_hook_keeps_discipline
           scripted "" "grp" "str" [] 1 0
           (initial (new_hook "" "")
                    [inl {| NextSequenceToken := Some "t1" |};
                     inl {| NextSequenceToken := Some "t2" |}])
           (initial example_hook
                    [inl {| NextSequenceToken := Some "t1" |};
                     inl {| NextSequenceToken := Some "t2" |}])
           _ two_writes);
    reflexivity.
Defined.

Lemma NewCloudWatchLogsHook_ignores_retention_days_witness :
  exec scripted
       (NewCloudWatchLogsHook "" "grp" "str" [WithGroupRetentionDays 7])
       1 0 (initial (new_hook "" "") [])
  = outcome_map
      (retain 7)
      (exec scripted (NewCloudWatchLogsHook "" "grp" "str" [])
            1 0 (initial (new_hook "" "") [])).
Proof.
  apply (NewCloudWatchLogsHook_ignores_retention_days
           scripted "" "grp" "str" [] [WithGroupRetentionDays 7] 7 1 0
           (initial (new_hook "" "") [])).
  reflexivity.
Defined.

Lemma unbatched_hook_uploads_single_events_witness :
  exists s,
    run scripted
        (initial example_hook
                 [inl {| NextSequenceToken := Some "t1" |};
                  inl {| NextSequenceToken := Some "t2" |}])
        two_writes = Some s /\
    length (uploads s) = 2%nat /\
    ch (hook s) = None /\
    started s = [] /\
    Forall (fun u => exists ev, LogEvents (fst u) = [ev]) (uploads s).
Proof.
  eexists. split; [vm_compute; reflexivity|]. split; [reflexivity|].
  apply (unbatched_hook_uploads_single_events
           scripted example_hook
           [inl {| NextSequenceToken := Some "t1" |};
            inl {| NextSequenceToken := Some "t2" |}]
           two_writes).
  - reflexivity.
  - vm_compute. reflexivity.
Defined.

Lemma batched_hook_uploads_within_limits_witness :
  exists s,
    run scripted
        (initial batched_hook [inl {| NextSequenceToken := Some "t1" |}])
        batch_then_upload = Some s /\
    map (fun u => LogEvents (fst u)) (uploads s)
    = [[{| Message := "a"; Timestamp := 0 |}]] /\
    ch (hook s) <> None /\
    Forall (fun g => exists batch,
                g = go_sendBatch batch /\ within_limits batch) (started s) /\
    submseteq (uploaded s) (batches_of (started s)) /\
    Forall (fun u => within_limits (LogEvents (fst u))) (uploads s).
Proof.
  assert (option_map
            (fun s => map (fun u => LogEvents (fst u)) (uploads s))
            (run scripted
                 (initial batched_hook
                          [inl {| NextSequenceToken := Some "t1" |}])
                 batch_then_upload)
          = Some [[{| Message := "a"; Timestamp := 0 |}]]) as Hlog.
  { vm_compute. reflexivity. }
  destruct (run scripted
                (initial batched_hook
                         [inl {| NextSequenceToken := Some "t1" |}])
                batch_then_upload) as [s|] eqn:Hrun; [|discriminate].
  exists s. split; [reflexivity|].
  split; [injection Hlog as Hlog; exact Hlog|].
  apply (batched_hook_uploads_within_limits
           scripted batched_hook
           [inl {| NextSequenceToken := Some "t1" |}]
           batch_then_upload s); [discriminate | exact Hrun].
Defined.

Lemma uploads_go_to_the_hook_stream_witness :
  exists s,
    run scripted
        (initial example_hook
                 [inl {| NextSequenceToken := Some "t1" |};
                  inl {| NextSequenceToken := Some "t2" |}])
        two_writes = Some s /\
    length (uploads s) = 2%nat /\
    group (hook s) = "grp" /\
    stream (hook s) = "str" /\
    Forall (fun u => LogGroupName (fst u) = "grp" /\
                     LogStreamName (fst u) = "str") (uploads s).
Proof.
  eexists. split; [vm_compute; reflexivity|]. split; [reflexivity|].
  apply (uploads_go_to_the_hook_stream
           scripted example_hook
           [inl {| NextSequenceToken := Some "t1" |};
            inl {| NextSequenceToken := Some "t2" |}]
           two_writes).
  vm_compute. reflexivity.
Defined.
